(** * insuree_batch/services.py: generation and export of insuree numbers

    A shallow embedding of [src/insuree_batch/services.py].  The Django
    tables the module reads and writes, the memoisation table of
    [get_location_id_len], the random source and the clock are fields of a
    [World]; every function of the module is a computation in a state and
    exception monad over that world.  A computation that raises keeps the
    world it has reached: the module opens no transaction, so rows written
    before an exception stay written. *)

From Stdlib Require Import ZArith List String Ascii Bool Lia.
Import ListNotations.
Local Open Scope string_scope.
Local Open Scope Z_scope.

(** ** Python built-ins used by the module *)

Module Py.

(** Exceptions the module can raise or let through. *)
Inductive exn : Type :=
| ValueError
| TypeError
| ZeroDivisionError
| DatabaseError
| BinasciiError
| OSError
| Exception_ (msg : string).

Inductive result (A : Type) : Type :=
| Ok (a : A)
| Raise (e : exn).
Arguments Ok {A} a.
Arguments Raise {A} e.

Definition is_digit (c : ascii) : bool :=
  let n := N_of_ascii c in (48 <=? n)%N && (n <=? 57)%N.

Definition digit_val (c : ascii) : Z := Z.of_N (N_of_ascii c) - 48.

Definition digit_char (d : Z) : ascii := ascii_of_N (Z.to_N (48 + d)).

(** [str.isdigit] on ASCII text, true on the empty string as well (the
    callers below only use it on non-empty strings). *)
Fixpoint all_digits (s : string) : bool :=
  match s with
  | EmptyString => true
  | String c r => is_digit c && all_digits r
  end.

(** The [n] least significant decimal digits of [x], most significant
    first. *)
Fixpoint digits (n : nat) (x : Z) : string :=
  match n with
  | O => ""
  | S m => digits m (x / 10) ++ String (digit_char (x mod 10)) ""
  end.

Fixpoint ndigits_aux (fuel : nat) (x : Z) : nat :=
  match fuel with
  | O => 1%nat
  | S f => if x <? 10 then 1%nat else S (ndigits_aux f (x / 10))
  end.

(** Number of decimal digits of a non-negative integer ([1] for [0]); the
    binary logarithm bounds the number of divisions by ten. *)
Definition ndigits (x : Z) : nat := ndigits_aux (Z.to_nat (Z.log2 x)) x.

(** [str(x)] for an integer. *)
Definition str (x : Z) : string :=
  if x <? 0 then String "-" (digits (ndigits (- x)) (- x))
  else digits (ndigits x) x.

(** [len(s)]. *)
Definition len (s : string) : Z := Z.of_nat (String.length s).

Fixpoint zeros (n : nat) : string :=
  match n with
  | O => ""
  | S m => String "0" (zeros m)
  end.

(** ["%0<width>d" % x]: the sign, then zeros, then the digits, at least
    [width] characters in all.  A number too wide for the field is printed
    in full.  The module only formats with [width >= 1]. *)
Definition fmt_0d (width : Z) (x : Z) : string :=
  if x <? 0 then
    let d := digits (ndigits (- x)) (- x) in
    String "-" (zeros (Z.to_nat (width - 1) - String.length d) ++ d)
  else
    let d := digits (ndigits x) x in
    zeros (Z.to_nat width - String.length d) ++ d.

(** Characters [str.strip] and [int] treat as blank (ASCII). *)
Definition is_space (c : ascii) : bool :=
  let n := N_of_ascii c in
  ((9 <=? n)%N && (n <=? 13)%N) || ((28 <=? n)%N && (n <=? 32)%N).

Fixpoint lstrip (s : string) : string :=
  match s with
  | String c r => if is_space c then lstrip r else s
  | EmptyString => ""
  end.

Fixpoint rstrip (s : string) : string :=
  match s with
  | EmptyString => ""
  | String c r =>
      match rstrip r with
      | EmptyString => if is_space c then "" else String c ""
      | r' => String c r'
      end
  end.

(** Digits with single underscores between them, as [int] accepts. *)
Fixpoint parse_digits (s : string) (acc : Z) (prev_digit : bool) : option Z :=
  match s with
  | EmptyString => if prev_digit then Some acc else None
  | String c r =>
      if is_digit c then parse_digits r (10 * acc + digit_val c) true
      else if (Ascii.eqb c "_" && prev_digit)%bool then parse_digits r acc false
      else None
  end.

(** [int(s)] for an ASCII string in base ten; [None] stands for the
    [ValueError] Python raises. *)
Definition int (s : string) : option Z :=
  match rstrip (lstrip s) with
  | String "-" r => option_map Z.opp (parse_digits r 0 false)
  | String "+" r => parse_digits r 0 false
  | t => parse_digits t 0 false
  end.

(** [needle in haystack] for strings. *)
Fixpoint contains (needle haystack : string) : bool :=
  String.prefix needle haystack ||
  match haystack with
  | EmptyString => false
  | String _ r => contains needle r
  end.

(** The value of a character in the base64 alphabet. *)
Definition b64_value (c : ascii) : option N :=
  let n := N_of_ascii c in
  if ((65 <=? n) && (n <=? 90))%N then Some (n - 65)%N
  else if ((97 <=? n) && (n <=? 122))%N then Some (n - 71)%N
  else if ((48 <=? n) && (n <=? 57))%N then Some (n + 4)%N
  else if (n =? 43)%N then Some 62%N
  else if (n =? 47)%N then Some 63%N
  else None.

(** [binascii.a2b_base64] in its default, lenient mode: characters outside
    the alphabet are skipped, a pad closes the input once the current group
    of four is complete with it, and input that ends inside a group is
    rejected. *)
Fixpoint a2b_loop (s : string) (quad_pos : nat) (leftchar : N) (pads : nat)
    (out : list ascii) : option (list ascii) :=
  match s with
  | EmptyString => if Nat.eqb quad_pos 0 then Some (rev out) else None
  | String c r =>
      if Ascii.eqb c "=" then
        if Nat.leb 2 quad_pos then
          if Nat.leb 4 (quad_pos + S pads) then Some (rev out)
          else a2b_loop r quad_pos leftchar (S pads) out
        else a2b_loop r quad_pos leftchar pads out
      else
        match b64_value c with
        | None => a2b_loop r quad_pos leftchar pads out
        | Some v =>
            match quad_pos with
            | 0%nat => a2b_loop r 1 v 0 out
            | 1%nat =>
                a2b_loop r 2 (N.land v 15) 0
                  (ascii_of_N (N.lor (N.shiftl leftchar 2) (N.shiftr v 4)) :: out)
            | 2%nat =>
                a2b_loop r 3 (N.land v 3) 0
                  (ascii_of_N (N.lor (N.shiftl leftchar 4) (N.shiftr v 2)) :: out)
            | _ =>
                a2b_loop r 0 0%N 0
                  (ascii_of_N (N.lor (N.shiftl leftchar 6) v) :: out)
            end
        end
  end.

(** [base64.decodebytes(s.encode("utf-8"))]; [None] stands for
    [binascii.Error]. *)
Definition decodebytes (s : string) : option (list ascii) := a2b_loop s 0 0%N 0 [].

End Py.

(** ** The data model *)

Import Py.

(** [location.models.Location]: the fields the module reads. *)
Record Location : Type := {
  loc_code : string;
  loc_type : string;
  loc_validity_to : option Z
}.

(** [insuree.photo]: the related photo row, whose [photo] field holds the
    base64 text. *)
Record Photo : Type := {
  photo_photo : option string
}.

(** [insuree.models.Insuree] (table [tblInsuree]): the fields the module
    reads. *)
Record Insuree : Type := {
  chf_id : string;
  other_names : string;
  last_name : string;
  dob : string;
  gender_id : string;
  photo : option Photo
}.

Record InsureeBatch : Type := {
  batch_id : nat;
  batch_location : option Location;
  audit_user_id : Z;
  archived : bool;
  comment : option string
}.

(** A row of [insuree_batch_batchinsureenumber]; [print_date = None] is a
    number that has not been printed. *)
Record BatchInsureeNumber : Type := {
  bin_batch : nat;
  insuree_number : string;
  print_date : option Z
}.

(** [InsureeConfig] and [django.conf.settings]. *)
Record Settings : Type := {
  insuree_number_length : option Z;
  insuree_number_modulo_root : option Z;
  DB_ENGINE : option string
}.

Record World : Type := {
  settings : Settings;
  tblInsuree : list Insuree;
  tblLocation : list Location;
  batches : list InsureeBatch;
  batch_numbers : list BatchInsureeNumber;
  (** the table [lru_cache] keeps for [get_location_id_len] *)
  id_len_cache : list (string * option Z);
  (** the random source and the number of draws made from it *)
  entropy : nat -> Z;
  draws : nat;
  (** what [datetime.now()] returns *)
  clock : Z;
  (** whether writing the archive file succeeds; [false] is an [OSError]
      of the file system, such as a full disk *)
  zip_write_ok : bool
}.

Definition set_id_len_cache (c : list (string * option Z)) (w : World) : World :=
  {| settings := settings w; tblInsuree := tblInsuree w; tblLocation := tblLocation w;
     batches := batches w; batch_numbers := batch_numbers w; id_len_cache := c;
     entropy := entropy w; draws := draws w; clock := clock w;
     zip_write_ok := zip_write_ok w |}.

Definition set_draws (n : nat) (w : World) : World :=
  {| settings := settings w; tblInsuree := tblInsuree w; tblLocation := tblLocation w;
     batches := batches w; batch_numbers := batch_numbers w;
     id_len_cache := id_len_cache w; entropy := entropy w; draws := n;
     clock := clock w; zip_write_ok := zip_write_ok w |}.

Definition set_batches (b : list InsureeBatch) (w : World) : World :=
  {| settings := settings w; tblInsuree := tblInsuree w; tblLocation := tblLocation w;
     batches := b; batch_numbers := batch_numbers w; id_len_cache := id_len_cache w;
     entropy := entropy w; draws := draws w; clock := clock w;
     zip_write_ok := zip_write_ok w |}.

Definition set_batch_numbers (n : list BatchInsureeNumber) (w : World) : World :=
  {| settings := settings w; tblInsuree := tblInsuree w; tblLocation := tblLocation w;
     batches := batches w; batch_numbers := n; id_len_cache := id_len_cache w;
     entropy := entropy w; draws := draws w; clock := clock w;
     zip_write_ok := zip_write_ok w |}.

(** ** The monad of the module's functions *)

Definition M (A : Type) : Type := World -> result A * World.

Definition ret {A : Type} (a : A) : M A := fun w => (Ok a, w).

Definition raise {A : Type} (e : exn) : M A := fun w => (Raise e, w).

Definition bind {A B : Type} (m : M A) (k : A -> M B) : M B :=
  fun w =>
    match m w with
    | (Ok a, w') => k a w'
    | (Raise e, w') => (Raise e, w')
    end.

Notation "x <- m ;; k" := (bind m (fun x => k))
  (at level 61, m at next level, right associativity).

Definition gets {A : Type} (f : World -> A) : M A := fun w => (Ok (f w), w).

Definition modify (f : World -> World) : M unit := fun w => (Ok tt, f w).

(** An [option] read as a Python value that may be [None], in a place
    where [None] makes the operation raise. *)
Definition lift {A : Type} (e : exn) (o : option A) : M A :=
  match o with
  | Some a => ret a
  | None => raise e
  end.

(** ** [get_random] and [get_location_id_len] *)

(** [random.randint(a, b)]: any integer of [a..b]; an empty range is a
    [ValueError]. *)
Definition randint (a b : Z) : M Z :=
  fun w =>
    if a <=? b
    then (Ok (a + entropy w (draws w) mod (b - a + 1)), set_draws (S (draws w)) w)
    else (Raise ValueError, w).

(** For [length <= 0] the lower bound [10 ** (length - 1)] is the float
    [0.1] or smaller and [randint] rejects it ([ValueError] up to CPython
    3.11, [TypeError] from 3.12). *)
Definition get_random (length : Z) : M Z :=
  if length <=? 0 then raise ValueError
  else randint (10 ^ (length - 1)) (10 ^ length - 1).

Definition is_none {A : Type} (o : option A) : bool :=
  match o with
  | None => true
  | Some _ => false
  end.

(** [Max] over a query set: [None] when there is no row. *)
Fixpoint max_of (l : list Z) : option Z :=
  match l with
  | [] => None
  | x :: r =>
      match max_of r with
      | None => Some x
      | Some m => Some (Z.max x m)
      end
  end.

(** The query of [get_location_id_len]:
    [filter(type=location_type, validity_to__isnull=True)], annotated with
    [Length("code")] and aggregated with [Max]. *)
Definition location_id_len_query (location_type : string) (w : World) : option Z :=
  max_of
    (map (fun l => len (loc_code l))
       (filter (fun l => String.eqb (loc_type l) location_type && is_none (loc_validity_to l))
          (tblLocation w))).

Fixpoint cache_lookup (k : string) (c : list (string * option Z)) : option (option Z) :=
  match c with
  | [] => None
  | (k', v) :: r => if String.eqb k' k then Some v else cache_lookup k r
  end.

(** [get_location_id_len] under [@lru_cache(maxsize=None)]: the query runs
    on the first call for a type, later calls return what that call
    returned, [None] included. *)
Definition get_location_id_len (location_type : string) : M (option Z) :=
  fun w =>
    match cache_lookup location_type (id_len_cache w) with
    | Some v => (Ok v, w)
    | None =>
        let v := location_id_len_query location_type w in
        (Ok v, set_id_len_cache ((location_type, v) :: id_len_cache w) w)
    end.

(** ** [generate_insuree_number] *)

(** The length and modulo in effect: the settings when both are given, 9
    and 7 when either is missing. *)
Definition number_config (s : Settings) : Z * Z :=
  match insuree_number_length s, insuree_number_modulo_root s with
  | Some length, Some modulo => (length, modulo)
  | _, _ => (9, 7)
  end.

(** [a - b] where [b] may be [None]. *)
Definition sub_int (a : Z) (b : option Z) : M Z :=
  n <- lift TypeError b ;; ret (a - n).

(** Lines 59 to 67: the main number.  With a location, Python evaluates
    [int(location.code)] first, then the first [get_location_id_len] and
    the power, then the second [get_location_id_len] and [get_random].
    When the exponent is negative the power is a float, and [get_random]
    raises on the same negative length before the sum is used. *)
Definition main_number (length modulo_len : Z) (location : option Location) : M Z :=
  match location with
  | Some loc =>
      code <- lift ValueError (int (loc_code loc)) ;;
      id_len <- get_location_id_len (loc_type loc) ;;
      e <- sub_int (length - modulo_len) id_len ;;
      id_len' <- get_location_id_len (loc_type loc) ;;
      rnd_len <- sub_int length id_len' ;;
      rnd <- get_random (rnd_len - modulo_len) ;;
      ret (code * 10 ^ e + rnd)
  | None => get_random (length - modulo_len)
  end.

(** [main_number % modulo]. *)
Definition py_mod (a b : Z) : M Z :=
  if b =? 0 then raise ZeroDivisionError else ret (a mod b).

Definition generate_insuree_number (location : option Location) : M string :=
  s <- gets settings ;;
  let '(length, modulo) := number_config s in
  let modulo_len := len (str modulo) in
  main <- main_number length modulo_len location ;;
  checksum <- py_mod main modulo ;;
  let padded_main := fmt_0d (length - modulo_len) main in
  let padded_checksum := fmt_0d modulo_len checksum in
  ret (padded_main ++ padded_checksum).

(** ** [generate_insuree_numbers] *)

Definition has_chf_id (n : string) (i : Insuree) : bool := String.eqb (chf_id i) n.

Definition has_number (n : string) (r : BatchInsureeNumber) : bool :=
  String.eqb (insuree_number r) n.

(** The test of lines 34 and 35, negated: the number is in use. *)
Definition number_taken (n : string) : M bool :=
  gets (fun w => existsb (has_chf_id n) (tblInsuree w)
                 || existsb (has_number n) (batch_numbers w)).

Definition exhausted_message : string :=
  "Could not generate an insuree id after 10000 attempts.".

(** The loop [for retry in range(1, 10000)] with its [else] branch;
    [attempts] is the number of values [range] still has to yield. *)
Fixpoint retry_loop (attempts : nat) (location : option Location) : M string :=
  match attempts with
  | O => raise (Exception_ exhausted_message)
  | S n =>
      insuree_number <- generate_insuree_number location ;;
      taken <- number_taken insuree_number ;;
      if taken then retry_loop n location else ret insuree_number
  end.

(** [len(range(a, b))]. *)
Definition range_len (a b : Z) : nat := Z.to_nat (b - a).

Definition create_number (batch : InsureeBatch) (n : string) : M unit :=
  modify (fun w =>
    set_batch_numbers
      (batch_numbers w ++
       [{| bin_batch := batch_id batch; insuree_number := n; print_date := None |}]) w).

(** The loop [for i in range(1, amount + 1)]. *)
Fixpoint populate (count : nat) (batch : InsureeBatch) (location : option Location) : M unit :=
  match count with
  | O => ret tt
  | S n =>
      insuree_number <- retry_loop (range_len 1 10000) location ;;
      _ <- create_number batch insuree_number ;;
      populate n batch location
  end.

(** [InsureeBatch.objects.create]: a row with an identifier no batch has. *)
Definition create_batch (location : option Location) (user : Z) (c : option string)
  : M InsureeBatch :=
  fun w =>
    let b := {| batch_id := S (list_max (map batch_id (batches w)));
                batch_location := location; audit_user_id := user;
                archived := false; comment := c |} in
    (Ok b, set_batches (batches w ++ [b]) w).

Definition generate_insuree_numbers (amount : Z) (audit_user : Z)
    (location : option Location) (c : option string) : M InsureeBatch :=
  batch <- create_batch location audit_user c ;;
  _ <- populate (range_len 1 (amount + 1)) batch location ;;
  ret batch.

(** ** [get_insurees_to_export] and [export_insurees] *)

(** The raw SQL of [get_insurees_to_export], by its parts: the [TOP n]
    after [select] (SQL Server), the bound parameter of
    [and ibb.batch_id=%s], the trailing [LIMIT n] (PostgreSQL). *)
Record RawQuerySet : Type := {
  sql_top : option Z;
  sql_batch : option nat;
  sql_limit : option Z
}.

(** Truth value of [amount]: [None] and [0] are false. *)
Definition truthy (amount : option Z) : bool :=
  match amount with
  | Some n => negb (n =? 0)
  | None => false
  end.

(** [hasattr(settings, "DB_ENGINE") and "postgres" in settings.DB_ENGINE]. *)
Definition is_postgres (s : Settings) : bool :=
  match DB_ENGINE s with
  | Some e => contains "postgres" e
  | None => false
  end.

(** The function builds the query and returns the query set; nothing is
    read from the database here, and the value returned is never Python's
    [None]. *)
Definition get_insurees_to_export (batch : option InsureeBatch) (amount : option Z)
  : M (option RawQuerySet) :=
  s <- gets settings ;;
  let postgres := is_postgres s in
  ret (Some {| sql_top := if truthy amount && negb postgres then amount else None;
               sql_batch := option_map batch_id batch;
               sql_limit := if truthy amount && postgres then amount else None |}).

Definition batch_matches (q : RawQuerySet) (r : BatchInsureeNumber) : bool :=
  match sql_batch q with
  | Some b => Nat.eqb (bin_batch r) b
  | None => true
  end.

(** The [where] clause on a number row joined to the insuree [i]. *)
Definition joins (q : RawQuerySet) (i : Insuree) (r : BatchInsureeNumber) : bool :=
  String.eqb (chf_id i) (insuree_number r) && is_none (print_date r) && batch_matches q r.

(** The inner join, in table order: an insuree row comes once for every
    unprinted number row that carries its identifier. *)
Definition joined (q : RawQuerySet) (w : World) : list (Insuree * BatchInsureeNumber) :=
  flat_map (fun i => map (pair i) (filter (joins q i) (batch_numbers w))) (tblInsuree w).

Definition row_cap (q : RawQuerySet) : option Z :=
  match sql_top q with
  | Some n => Some n
  | None => sql_limit q
  end.

(** Running the query: the joined rows, cut to the row cap; both engines
    reject a negative cap. *)
Definition run_query (q : RawQuerySet) : M (list (Insuree * BatchInsureeNumber)) :=
  fun w =>
    match row_cap q with
    | None => (Ok (joined q w), w)
    | Some n =>
        if n <? 0 then (Raise DatabaseError, w)
        else (Ok (firstn (Z.to_nat n) (joined q w)), w)
    end.

Inductive FileContent : Type :=
| CsvFile (rows : list (list string))
| BinFile (bytes : list ascii).

(** The archive: member name and content, in the order written. *)
Definition Archive : Type := list (string * FileContent).

(** [insuree.photo and insuree.photo.photo]: the base64 text when there
    is a photo row with a non-empty text. *)
Definition photo_text (i : Insuree) : option string :=
  match photo i with
  | Some p =>
      match photo_photo p with
      | Some "" => None
      | t => t
      end
  | None => None
  end.

Definition csv_row (i : Insuree) : list string :=
  [chf_id i; other_names i; last_name i; dob i; gender_id i].

(** The loop of lines 102 to 120 over the temporary directory: the rows
    written to [index.csv], the names queued for the archive and the photo
    files written.  A photo that does not decode raises out of the loop. *)
Fixpoint bundle (to_export : list Insuree) (rows : list (list string))
    (files_to_zip : list string) (files : list (string * FileContent))
  : result (list (list string) * list string * list (string * FileContent)) :=
  match to_export with
  | [] => Ok (rows, files_to_zip, files)
  | insuree :: rest =>
      match photo_text insuree with
      | Some text =>
          let photo_filename := chf_id insuree ++ ".jpg" in
          match decodebytes text with
          | Some decoded_photo =>
              bundle rest (rows ++ [csv_row insuree]) (files_to_zip ++ [photo_filename])
                ((photo_filename, BinFile decoded_photo) :: files)
          | None => Raise BinasciiError
          end
      | None => bundle rest (rows ++ [csv_row insuree]) files_to_zip files
      end
  end.

Fixpoint read_file (name : string) (files : list (string * FileContent)) : FileContent :=
  match files with
  | [] => BinFile []
  | (n, c) :: r => if String.eqb n name then c else read_file name r
  end.

(** Lines 127 to 130: every queued file goes into the archive. *)
Definition write_zip (files_to_zip : list string) (files : list (string * FileContent))
  : M Archive :=
  fun w =>
    if zip_write_ok w
    then (Ok (map (fun n => (n, read_file n files)) files_to_zip), w)
    else (Raise OSError, w).

Definition in_ids (ids : list string) (r : BatchInsureeNumber) : bool :=
  existsb (String.eqb (insuree_number r)) ids.

(** [filter(insuree_number__in=ids).update(print_date=now)]. *)
Definition mark_printed (ids : list string) (now : Z) (r : BatchInsureeNumber)
  : BatchInsureeNumber :=
  if in_ids ids r
  then {| bin_batch := bin_batch r; insuree_number := insuree_number r;
          print_date := Some now |}
  else r.

Definition update_print_date (ids : list string) : M unit :=
  modify (fun w => set_batch_numbers (map (mark_printed ids (clock w)) (batch_numbers w)) w).

Definition of_result {A : Type} (r : result A) : M A := fun w => (r, w).

(** The result is [None] for Python's [None] and [Some] of the archive
    for the file the function returns. *)
Definition export_insurees (batch : option InsureeBatch) (amount : option Z)
    (dry_run : bool) : M (option Archive) :=
  to_export <- get_insurees_to_export batch amount ;;
  match to_export with
  | None => ret None
  | Some q =>
      selected <- run_query q ;;
      let to_export := map fst selected in
      b <- of_result (bundle to_export [] ["index.csv"] []) ;;
      let '(rows, files_to_zip, files) := b in
      _ <- (if negb dry_run then update_print_date (map chf_id to_export) else ret tt) ;;
      zf <- write_zip files_to_zip (("index.csv", CsvFile rows) :: files) ;;
      ret (Some zf)
  end.

(** ** Vocabulary of the statements *)

(** [x] is printed by ["%0<w>d"] in exactly [w] characters. *)
Definition fits (w : Z) (x : Z) : Prop :=
  0 <= x < 10 ^ w \/ (x < 0 /\ - x < 10 ^ (w - 1)).

(** Everything of the world but the memoisation table and the position in
    the random source. *)
Definition tables (w : World)
  : Settings * list Insuree * list Location * list InsureeBatch
    * list BatchInsureeNumber * (nat -> Z) * Z * bool :=
  (settings w, tblInsuree w, tblLocation w, batches w, batch_numbers w,
   entropy w, clock w, zip_write_ok w).

(** The location's code is an integer whose text is no longer than the
    code length [get_location_id_len] answers for the location's type. *)
Definition location_fits (loc : Location) (w : World) : bool :=
  match int (loc_code loc), fst (get_location_id_len (loc_type loc) w) with
  | Some code, Ok (Some id_len) => len (str code) <=? id_len
  | _, _ => false
  end.

Definition code_fits (location : option Location) (w : World) : bool :=
  match location with
  | Some loc => location_fits loc w
  | None => true
  end.

Definition code_nonneg (location : option Location) : bool :=
  match location with
  | Some loc =>
      match int (loc_code loc) with
      | Some code => 0 <=? code
      | None => false
      end
  | None => true
  end.

(** The identifiers in use: those of the insurees and those of the
    numbers of all batches. *)
Definition used_numbers (w : World) : list string :=
  (map chf_id (tblInsuree w) ++ map insuree_number (batch_numbers w))%list.

(** The number rows a batch holds. *)
Definition rows_of (batch : InsureeBatch) (numbers : list string) : list BatchInsureeNumber :=
  map (fun n => {| bin_batch := batch_id batch; insuree_number := n; print_date := None |})
    numbers.

(** The rows [export_insurees] selects: the query of
    [get_insurees_to_export], run. *)
Definition selection (batch : option InsureeBatch) (amount : option Z) (w : World)
  : result (list (Insuree * BatchInsureeNumber)) :=
  match fst (get_insurees_to_export batch amount w) with
  | Ok (Some q) => fst (run_query q w)
  | Ok None => Ok []
  | Raise e => Raise e
  end.

(** A computation that leaves the tables as they are. *)
Definition preserves {A : Type} (m : M A) : Prop :=
  forall w r w', m w = (r, w') -> tables w' = tables w.

(** The archive [export_insurees] writes from what [bundle] left in the
    temporary directory. *)
Definition archive_of (b : list (list string) * list string * list (string * FileContent))
  : Archive :=
  let '(rows, files_to_zip, files) := b in
  map (fun n => (n, read_file n (("index.csv", CsvFile rows) :: files))) files_to_zip.

(** The number table after the update of lines 123 to 125 for the
    selection [sel]. *)
Definition marked (sel : list (Insuree * BatchInsureeNumber)) (w : World) : World :=
  set_batch_numbers
    (map (mark_printed (map chf_id (map fst sel)) (clock w)) (batch_numbers w)) w.


(** ** Sample worlds *)

Definition default_settings : Settings :=
  {| insuree_number_length := None; insuree_number_modulo_root := None;
     DB_ENGINE := None |}.

(** A district in force, and one of the same type that was closed; the
    closed one has the longer code. *)
Definition district_12 : Location :=
  {| loc_code := "12"; loc_type := "D"; loc_validity_to := None |}.

Definition district_123_closed : Location :=
  {| loc_code := "123"; loc_type := "D"; loc_validity_to := Some 1600000000 |}.

Definition district_minus_5 : Location :=
  {| loc_code := "-5"; loc_type := "D"; loc_validity_to := None |}.

Definition district_R1D1 : Location :=
  {| loc_code := "R1D1"; loc_type := "D"; loc_validity_to := None |}.

Definition ward_7 : Location :=
  {| loc_code := "7"; loc_type := "W"; loc_validity_to := None |}.

Definition world0 : World :=
  {| settings := default_settings;
     tblInsuree := [];
     tblLocation := [district_12; district_123_closed];
     batches := [];
     batch_numbers := [];
     id_len_cache := [];
     entropy := fun n => 7919 * Z.of_nat n + 12345;
     draws := 0;
     clock := 1700000000;
     zip_write_ok := true |}.

Definition set_settings (s : Settings) (w : World) : World :=
  {| settings := s; tblInsuree := tblInsuree w; tblLocation := tblLocation w;
     batches := batches w; batch_numbers := batch_numbers w;
     id_len_cache := id_len_cache w; entropy := entropy w; draws := draws w;
     clock := clock w; zip_write_ok := zip_write_ok w |}.

Definition set_tblLocation (l : list Location) (w : World) : World :=
  {| settings := settings w; tblInsuree := tblInsuree w; tblLocation := l;
     batches := batches w; batch_numbers := batch_numbers w;
     id_len_cache := id_len_cache w; entropy := entropy w; draws := draws w;
     clock := clock w; zip_write_ok := zip_write_ok w |}.

(** The same world with a negative modulo configured. *)
Definition world_negative_modulo : World :=
  set_settings {| insuree_number_length := Some 9;
                  insuree_number_modulo_root := Some (-7);
                  DB_ENGINE := None |} world0.





Definition person (n : string) (p : option Photo) : Insuree :=
  {| chf_id := n; other_names := "Ada"; last_name := "Lovelace"; dob := "1815-12-10";
     gender_id := "F"; photo := p |}.

(** Two-character numbers with modulo 7: the nine numbers "11", "22",
    ..., "92" are all there is.  "11" is taken, and the random source
    gives "11" 9999 times, then "22". *)
Definition world_crowded : World :=
  {| settings := {| insuree_number_length := Some 2;
                    insuree_number_modulo_root := Some 7;
                    DB_ENGINE := None |};
     tblInsuree := [person "11" None];
     tblLocation := [];
     batches := [];
     batch_numbers := [];
     id_len_cache := [];
     entropy := fun n => if Z.of_nat n <? 9999 then 0 else 1;
     draws := 0;
     clock := 1700000000;
     zip_write_ok := true |}.

Definition number_row (b : nat) (n : string) (p : option Z) : BatchInsureeNumber :=
  {| bin_batch := b; insuree_number := n; print_date := p |}.

Definition with_photo (text : string) : option Photo :=
  Some {| photo_photo := Some text |}.

Definition set_export_tables (i : list Insuree) (n : list BatchInsureeNumber)
    (ok : bool) (w : World) : World :=
  {| settings := settings w; tblInsuree := i; tblLocation := tblLocation w;
     batches := batches w; batch_numbers := n; id_len_cache := id_len_cache w;
     entropy := entropy w; draws := draws w; clock := clock w; zip_write_ok := ok |}.

(** Three insurees with their numbers: two not printed, one printed at
    [1650000000]. *)
Definition world_export : World :=
  set_export_tables
    [person "100123450" (with_photo "QUJD"); person "100202692" None;
     person "100281934" None]
    [number_row 1 "100123450" None; number_row 1 "100202692" None;
     number_row 1 "100281934" (Some 1650000000)]
    true world0.




(** Every number is printed. *)
Definition world_all_printed : World :=
  set_export_tables
    [person "100281934" None]
    [number_row 1 "100281934" (Some 1650000000)]
    true world0.

(** What the export of [world_export] selects without batch or amount. *)
Definition selection_export : list (Insuree * BatchInsureeNumber) :=
  [(person "100123450" (with_photo "QUJD"), number_row 1 "100123450" None);
   (person "100202692" None, number_row 1 "100202692" None)].

(** ** Further vocabulary and sample worlds *)

(** The memoisation table only gains entries: what it answers for a type,
    it answers from then on. *)
Definition cache_extends (w w' : World) : Prop :=
  forall ty v,
    cache_lookup ty (id_len_cache w) = Some v ->
    cache_lookup ty (id_len_cache w') = Some v.

(** A computation that makes at most [n] draws from the random source
    and only adds to the memoisation table. *)
Definition advances {A : Type} (n : nat) (m : M A) : Prop :=
  forall w r w',
    m w = (r, w') ->
    (draws w <= draws w' <= draws w + n)%nat /\ cache_extends w w'.

(** The identifier [generate_insuree_number] builds from a main number
    (lines 68 to 72). *)
Definition candidate (s : Settings) (main : Z) : string :=
  let '(length, modulo) := number_config s in
  let modulo_len := len (str modulo) in
  fmt_0d (length - modulo_len) main ++ fmt_0d modulo_len (main mod modulo).

(** A location in force that is stored in the location table. *)
Definition in_force (loc : Location) (w : World) : Prop :=
  In loc (tblLocation w) /\ loc_validity_to loc = None.

(** Two-character numbers with modulo 7, all nine of them taken. *)
Definition world_full : World :=
  {| settings := {| insuree_number_length := Some 2;
                    insuree_number_modulo_root := Some 7;
                    DB_ENGINE := None |};
     tblInsuree := map (fun n => person n None)
                     ["11"; "22"; "33"; "44"; "55"; "66"; "70"; "81"; "92"];
     tblLocation := [];
     batches := [];
     batch_numbers := [];
     id_len_cache := [];
     entropy := fun n => Z.of_nat n;
     draws := 0;
     clock := 1700000000;
     zip_write_ok := true |}.

(** A modulo of zero. *)
Definition world_modulo_zero : World :=
  set_settings {| insuree_number_length := Some 9;
                  insuree_number_modulo_root := Some 0;
                  DB_ENGINE := None |} world0.

(** The memoisation table is not stale for a type: what it holds for the
    type, if anything, is what the query answers on the current table. *)
Definition cache_fresh (ty : string) (w : World) : Prop :=
  forall v, cache_lookup ty (id_len_cache w) = Some v -> v = location_id_len_query ty w.

(** The archive member of an insuree's photo, and whether there is one
    (line 103). *)
Definition jpg_name (i : Insuree) : string := chf_id i ++ ".jpg".

Definition has_photo (i : Insuree) : bool := negb (is_none (photo_text i)).

(** The condition under which the query selects the pair of an insuree
    and a number row. *)
Definition exportable (batch : option InsureeBatch) (w : World)
    (i : Insuree) (r : BatchInsureeNumber) : Prop :=
  In i (tblInsuree w) /\ In r (batch_numbers w)
  /\ chf_id i = insuree_number r /\ print_date r = None
  /\ forall b, batch = Some b -> bin_batch r = batch_id b.

(** A location [generate_insuree_number] can encode: none, or a stored
    location in force whose code [int] reads as a non-negative integer,
    with a memoisation table that is stale for no type. *)
Definition encodable (location : option Location) (w : World) : Prop :=
  match location with
  | None => True
  | Some loc =>
      in_force loc w
      /\ (exists code, int (loc_code loc) = Some code /\ 0 <= code)
      /\ forall ty, cache_fresh ty w
  end.

Example str_examples :
  Py.str 7 = "7" /\ Py.str 0 = "0" /\ Py.str 1234567 = "1234567" /\ Py.str (-42) = "-42".
Proof. repeat split; reflexivity. Qed.

Example fmt_examples :
  Py.fmt_0d 8 42 = "00000042" /\ Py.fmt_0d 1 3 = "3" /\ Py.fmt_0d 2 123 = "123"
  /\ Py.fmt_0d 5 (-42) = "-0042" /\ Py.fmt_0d 1 0 = "0".
Proof. repeat split; reflexivity. Qed.

Example int_examples :
  Py.int "12" = Some 12 /\ Py.int " 007 " = Some 7 /\ Py.int "-5" = Some (-5)
  /\ Py.int "1_000" = Some 1000 /\ Py.int "R1D1" = None /\ Py.int "" = None
  /\ Py.int "1__0" = None /\ Py.int "12_" = None.
Proof. repeat split; reflexivity. Qed.

Example decodebytes_examples :
  Py.decodebytes "QUJD" = Some ["A"; "B"; "C"]%char
  /\ Py.decodebytes "QQ==" = Some ["A"]%char
  /\ Py.decodebytes "" = Some []
  /\ Py.decodebytes "A" = None.
Proof. repeat split; reflexivity. Qed.

Example default_number_config : number_config default_settings = (9, 7).
Proof. reflexivity. Qed.

Example half_configured_defaults :
  number_config {| insuree_number_length := Some 12; insuree_number_modulo_root := None;
                   DB_ENGINE := None |} = (9, 7).
Proof. reflexivity. Qed.

Example attempts_per_number : Z.of_nat (range_len 1 10000) = 9999.
Proof. reflexivity. Qed.

Example export_amount_cap :
  selection None (Some 1) world_export
  = Ok [(person "100123450" (with_photo "QUJD"), number_row 1 "100123450" None)].
Proof. reflexivity. Qed.

Example export_negative_amount :
  fst (export_insurees None (Some (-1)) true world_export) = Raise DatabaseError.
Proof. reflexivity. Qed.

(** * Properties *)

(** ** Decimal text *)

Section Decimal.

Lemma length_app (a b : string) :
  String.length (a ++ b) = (String.length a + String.length b)%nat.
Proof. induction a as [|c a IH]; simpl; [reflexivity | now rewrite IH]. Qed.

Lemma app_empty_r (a : string) : a ++ "" = a.
Proof. induction a as [|c a IH]; simpl; [reflexivity | now rewrite IH]. Qed.

Lemma app_assoc_s (a b c : string) : (a ++ b) ++ c = a ++ (b ++ c).
Proof. induction a as [|x a IH]; simpl; [reflexivity | now rewrite IH]. Qed.

Lemma all_digits_app (a b : string) :
  all_digits (a ++ b) = all_digits a && all_digits b.
Proof.
  induction a as [|c a IH]; simpl; [reflexivity |].
  now rewrite IH, andb_assoc.
Qed.

Lemma is_digit_digit_char (d : Z) : 0 <= d < 10 -> is_digit (digit_char d) = true.
Proof.
  intros H.
  assert (E : d = 0 \/ d = 1 \/ d = 2 \/ d = 3 \/ d = 4 \/ d = 5 \/ d = 6
              \/ d = 7 \/ d = 8 \/ d = 9) by lia.
  repeat (destruct E as [E | E]; [subst d; reflexivity |]).
  subst d; reflexivity.
Qed.

Lemma length_digits (n : nat) (x : Z) : String.length (digits n x) = n.
Proof.
  revert x; induction n as [|n IH]; intros x; simpl; [reflexivity |].
  rewrite length_app, IH; simpl; lia.
Qed.

Lemma all_digits_digits (n : nat) (x : Z) : all_digits (digits n x) = true.
Proof.
  revert x; induction n as [|n IH]; intros x; simpl; [reflexivity |].
  rewrite all_digits_app, IH; simpl.
  rewrite is_digit_digit_char; [reflexivity | apply Z.mod_pos_bound; lia].
Qed.

Lemma length_zeros (n : nat) : String.length (zeros n) = n.
Proof. induction n as [|n IH]; simpl; [reflexivity | now rewrite IH]. Qed.

Lemma zeros_snoc (n : nat) : zeros (S n) = zeros n ++ "0".
Proof. induction n as [|n IH]; [reflexivity |]. simpl in *. now rewrite <- IH. Qed.

Lemma digits_pad (m n : nat) (x : Z) :
  0 <= x < 10 ^ Z.of_nat n -> digits (m + n) x = zeros m ++ digits n x.
Proof.
  revert x; induction n as [|n IH]; intros x Hx.
  - assert (x = 0) by (change (10 ^ Z.of_nat 0) with 1 in Hx; lia). subst x.
    rewrite Nat.add_0_r; simpl. rewrite app_empty_r.
    clear Hx. induction m as [|m IHm]; [reflexivity |].
    cbn [digits]. change (0 / 10) with 0. rewrite IHm.
    now rewrite zeros_snoc.
  - rewrite Nat.add_succ_r. cbn [digits].
    rewrite IH, app_assoc_s; [reflexivity |].
    rewrite Nat2Z.inj_succ, Z.pow_succ_r in Hx by lia.
    split; [apply Z.div_pos; lia | apply Z.div_lt_upper_bound; lia].
Qed.

Lemma digits_split (n k : nat) (c r : Z) :
  0 <= r < 10 ^ Z.of_nat k ->
  digits (n + k) (c * 10 ^ Z.of_nat k + r) = digits n c ++ digits k r.
Proof.
  revert r; induction k as [|k IH]; intros r Hr.
  - assert (r = 0) by (change (10 ^ Z.of_nat 0) with 1 in Hr; lia). subst r.
    rewrite Nat.add_0_r; simpl. now rewrite app_empty_r, Z.mul_1_r, Z.add_0_r.
  - rewrite Nat.add_succ_r. cbn [digits].
    rewrite Nat2Z.inj_succ, Z.pow_succ_r in * by lia.
    replace (c * (10 * 10 ^ Z.of_nat k) + r)
      with (r + (c * 10 ^ Z.of_nat k) * 10) by ring.
    rewrite Z.div_add, Z.mod_add by lia.
    replace (r / 10 + c * 10 ^ Z.of_nat k)
      with (c * 10 ^ Z.of_nat k + r / 10) by ring.
    rewrite IH, app_assoc_s; [reflexivity |].
    split; [apply Z.div_pos; lia | apply Z.div_lt_upper_bound; lia].
Qed.

Lemma ndigits_aux_spec (fuel : nat) (x : Z) :
  0 <= x < 2 ^ (Z.of_nat fuel + 1) ->
  (1 <= ndigits_aux fuel x)%nat
  /\ x < 10 ^ Z.of_nat (ndigits_aux fuel x)
  /\ (ndigits_aux fuel x = 1%nat \/ 10 ^ (Z.of_nat (ndigits_aux fuel x) - 1) <= x).
Proof.
  revert x; induction fuel as [|f IH]; intros x Hx.
  - simpl in *. change (2 ^ 1) with 2 in Hx. repeat split; [lia | | now left].
    change (10 ^ Z.of_nat 1) with 10. lia.
  - cbn [ndigits_aux]. destruct (Z.ltb_spec x 10) as [Hlt | Hge].
    + repeat split; [lia | | now left]. change (10 ^ Z.of_nat 1) with 10. lia.
    + assert (Hq : 0 <= x / 10 < 2 ^ (Z.of_nat f + 1)).
      { rewrite Nat2Z.inj_succ in Hx.
        replace (Z.succ (Z.of_nat f) + 1) with (Z.succ (Z.of_nat f + 1)) in Hx by lia.
        rewrite Z.pow_succ_r in Hx by lia.
        split; [apply Z.div_pos; lia | apply Z.div_lt_upper_bound; lia]. }
      destruct (IH _ Hq) as (H1 & H2 & H3).
      set (n := ndigits_aux f (x / 10)) in *.
      assert (Hx10 : 10 * (x / 10) <= x < 10 * (x / 10) + 10).
      { pose proof (Z.div_mod x 10 ltac:(lia)).
        pose proof (Z.mod_pos_bound x 10 ltac:(lia)). lia. }
      repeat split; [lia | |].
      * rewrite Nat2Z.inj_succ, Z.pow_succ_r by lia. lia.
      * right. rewrite Nat2Z.inj_succ.
        replace (Z.succ (Z.of_nat n) - 1) with (Z.succ (Z.of_nat n - 1)) by lia.
        rewrite Z.pow_succ_r by lia.
        destruct H3 as [E | H3]; [| lia].
        rewrite E. change (10 ^ (Z.of_nat 1 - 1)) with 1. lia.
Qed.

Lemma ndigits_spec (x : Z) :
  0 <= x ->
  (1 <= ndigits x)%nat
  /\ x < 10 ^ Z.of_nat (ndigits x)
  /\ (ndigits x = 1%nat \/ 10 ^ (Z.of_nat (ndigits x) - 1) <= x).
Proof.
  intros Hx. unfold ndigits. apply ndigits_aux_spec.
  split; [assumption |].
  rewrite Z2Nat.id by apply Z.log2_nonneg.
  destruct (Z.eq_dec x 0) as [-> | Hne]; [reflexivity |].
  pose proof (Z.log2_spec x ltac:(lia)) as H. unfold Z.succ in H. lia.
Qed.

(** A number below [10 ^ w] has at most [w] digits. *)
Lemma ndigits_le (w : nat) (x : Z) :
  (1 <= w)%nat -> 0 <= x < 10 ^ Z.of_nat w -> (ndigits x <= w)%nat.
Proof.
  intros Hw Hx. destruct (ndigits_spec x ltac:(lia)) as (H1 & H2 & [E | H3]); [lia |].
  assert (Z.of_nat (ndigits x) - 1 < Z.of_nat w); [| lia].
  apply (Z.pow_lt_mono_r_iff 10); lia.
Qed.

Lemma fmt_0d_digits (w x : Z) :
  1 <= w -> 0 <= x < 10 ^ w -> fmt_0d w x = digits (Z.to_nat w) x.
Proof.
  intros Hw Hx. unfold fmt_0d.
  destruct (Z.ltb_spec x 0) as [? | _]; [lia |].
  cbv zeta. rewrite length_digits.
  assert (Hn : (ndigits x <= Z.to_nat w)%nat).
  { apply ndigits_le; [lia |]. rewrite Z2Nat.id by lia. assumption. }
  rewrite <- digits_pad.
  - f_equal. lia.
  - split; [lia | apply ndigits_spec; lia].
Qed.

Lemma length_fmt_0d (w x : Z) :
  1 <= w -> fits w x -> len (fmt_0d w x) = w.
Proof.
  intros Hw [Hx | [Hneg Hx]].
  - rewrite fmt_0d_digits by assumption. unfold len. rewrite length_digits. lia.
  - unfold fmt_0d, len. destruct (Z.ltb_spec x 0) as [_ | ?]; [| lia].
    cbv zeta. cbn [String.length]. rewrite length_app, length_zeros, length_digits.
    assert (2 <= w).
    { destruct (Z.eq_dec w 1) as [-> | ?]; [| lia].
      change (10 ^ (1 - 1)) with 1 in Hx. lia. }
    assert (Hn : (ndigits (- x) <= Z.to_nat (w - 1))%nat).
    { apply ndigits_le; [lia |]. rewrite Z2Nat.id by lia. lia. }
    lia.
Qed.

(** A number whose text [str] is at most [w] characters long fits the
    field. *)
Lemma str_fits (w x : Z) : len (str x) <= w -> fits w x.
Proof.
  unfold str, len, fits. destruct (Z.ltb_spec x 0) as [Hneg | Hpos].
  - cbn [String.length]. rewrite length_digits. intros H. right.
    split; [assumption |].
    destruct (ndigits_spec (- x) ltac:(lia)) as (H1 & H2 & _).
    eapply Z.lt_le_trans; [exact H2 |].
    apply Z.pow_le_mono_r; lia.
  - rewrite length_digits. intros H. left.
    split; [assumption |].
    destruct (ndigits_spec x ltac:(lia)) as (H1 & H2 & _).
    eapply Z.lt_le_trans; [exact H2 |].
    apply Z.pow_le_mono_r; lia.
Qed.

Lemma len_str_pos (x : Z) : 1 <= len (str x).
Proof.
  unfold str, len. destruct (x <? 0); cbn [String.length]; rewrite ?length_digits.
  - lia.
  - destruct (Z.ltb_spec x 0).
    + unfold ndigits. destruct (Z.to_nat (Z.log2 x)); simpl; [lia |].
      destruct (x <? 10); lia.
    + destruct (ndigits_spec x ltac:(lia)) as (H1 & _). lia.
Qed.

(** The checksum always fills its field exactly. *)
Lemma checksum_fits (a m : Z) : m <> 0 -> fits (len (str m)) (a mod m).
Proof.
  intros Hm. destruct (Z.lt_trichotomy m 0) as [Hneg | [? | Hpos]]; [| lia |].
  - pose proof (Z.mod_neg_bound a m Hneg) as Hb.
    pose proof (str_fits (len (str m)) m ltac:(lia)) as [? | [_ Hf]]; [lia |].
    destruct (Z.eq_dec (a mod m) 0) as [E | Hne].
    + left. rewrite E. split; [lia |]. apply Z.pow_pos_nonneg; [lia |].
      pose proof (len_str_pos m); lia.
    + right. lia.
  - pose proof (Z.mod_pos_bound a m Hpos) as Hb.
    pose proof (str_fits (len (str m)) m ltac:(lia)) as [Hf | [? _]]; [| lia].
    left. lia.
Qed.

End Decimal.

(** ** [get_random], [get_location_id_len], [generate_insuree_number] *)

Section Generation.

Lemma get_random_inv (k : Z) (w w' : World) (r : Z) :
  get_random k w = (Ok r, w') ->
  1 <= k
  /\ r = 10 ^ (k - 1) + entropy w (draws w) mod (10 ^ k - 10 ^ (k - 1))
  /\ 10 ^ (k - 1) <= r < 10 ^ k
  /\ w' = set_draws (S (draws w)) w.
Proof.
  unfold get_random, raise, randint.
  destruct (Z.leb_spec k 0) as [? | Hk]; [discriminate |].
  assert (Hp : 10 ^ k = 10 * 10 ^ (k - 1)).
  { rewrite <- Z.pow_succ_r by lia. f_equal. lia. }
  assert (0 < 10 ^ (k - 1)) by (apply Z.pow_pos_nonneg; lia).
  destruct (Z.leb_spec (10 ^ (k - 1)) (10 ^ k - 1)) as [_ | ?]; [| lia].
  intros E. injection E as <- <-.
  replace (10 ^ k - 1 - 10 ^ (k - 1) + 1) with (10 ^ k - 10 ^ (k - 1)) by lia.
  pose proof (Z.mod_pos_bound (entropy w (draws w)) (10 ^ k - 10 ^ (k - 1)) ltac:(lia)).
  repeat split; lia.
Qed.

Lemma get_random_total (k : Z) (w : World) :
  1 <= k -> exists r, get_random k w = (Ok r, set_draws (S (draws w)) w).
Proof.
  intros Hk. unfold get_random, randint.
  destruct (Z.leb_spec k 0) as [? | _]; [lia |].
  assert (Hp : 10 ^ k = 10 * 10 ^ (k - 1)).
  { rewrite <- Z.pow_succ_r by lia. f_equal. lia. }
  assert (0 < 10 ^ (k - 1)) by (apply Z.pow_pos_nonneg; lia).
  destruct (Z.leb_spec (10 ^ (k - 1)) (10 ^ k - 1)) as [_ | ?]; [| lia].
  eexists; reflexivity.
Qed.

Lemma cache_lookup_head (k : string) (v : option Z) (c : list (string * option Z)) :
  cache_lookup k ((k, v) :: c) = Some v.
Proof. simpl. now rewrite String.eqb_refl. Qed.

(** What a call answers, the next call answers again, without a query. *)
Lemma get_location_id_len_cached (ty : string) (w w' : World) (v : option Z) :
  get_location_id_len ty w = (Ok v, w') ->
  get_location_id_len ty w' = (Ok v, w') /\ tables w' = tables w /\ draws w' = draws w.
Proof.
  unfold get_location_id_len.
  destruct (cache_lookup ty (id_len_cache w)) as [v0 |] eqn:E; intros H.
  - injection H as <- <-. now rewrite E.
  - injection H as <- <-. cbn [id_len_cache set_id_len_cache].
    now rewrite cache_lookup_head.
Qed.

Lemma get_location_id_len_ok (ty : string) (w : World) :
  exists v w', get_location_id_len ty w = (Ok v, w').
Proof.
  unfold get_location_id_len.
  destruct (cache_lookup ty (id_len_cache w)); eexists; eexists; reflexivity.
Qed.

Lemma main_number_location_inv (L W : Z) (loc : Location) (w w' : World) (main : Z) :
  main_number L W (Some loc) w = (Ok main, w') ->
  exists code id_len w1 rnd,
    int (loc_code loc) = Some code
    /\ get_location_id_len (loc_type loc) w = (Ok (Some id_len), w1)
    /\ get_random (L - W - id_len) w1 = (Ok rnd, w')
    /\ main = code * 10 ^ (L - W - id_len) + rnd.
Proof.
  unfold main_number, bind, lift, sub_int, bind, lift, ret, raise.
  destruct (int (loc_code loc)) as [code |]; [| discriminate].
  destruct (get_location_id_len (loc_type loc) w) as [[v | e] w1] eqn:E1; [| discriminate].
  destruct v as [id_len |]; [| discriminate].
  destruct (get_location_id_len_cached _ _ _ _ E1) as (E2 & _ & _).
  rewrite E2.
  replace (L - id_len - W) with (L - W - id_len) by lia.
  destruct (get_random (L - W - id_len) w1) as [[rnd | e] w2] eqn:E3; [| discriminate].
  intros H. injection H as <- <-.
  exists code, id_len, w1, rnd. repeat split; assumption.
Qed.

Lemma generate_insuree_number_inv (location : option Location) (w w' : World)
    (id : string) (L M : Z) :
  number_config (settings w) = (L, M) ->
  generate_insuree_number location w = (Ok id, w') ->
  exists main,
    main_number L (len (str M)) location w = (Ok main, w')
    /\ M <> 0
    /\ id = fmt_0d (L - len (str M)) main ++ fmt_0d (len (str M)) (main mod M).
Proof.
  intros Hc. unfold generate_insuree_number, bind, gets. rewrite Hc.
  destruct (main_number L (len (str M)) location w) as [[main | e] w1]; [| discriminate].
  unfold py_mod, raise, ret.
  destruct (Z.eqb_spec M 0) as [? | Hm]; [discriminate |].
  intros H. injection H as <- <-. exists main. repeat split; assumption.
Qed.

(** The main number fills its field when no location is given, and when
    the location's code fits the code length of its type. *)
Lemma main_number_fits (location : option Location) (w w' : World) (L W main : Z) :
  1 <= W ->
  code_fits location w = true ->
  main_number L W location w = (Ok main, w') ->
  1 <= L - W /\ fits (L - W) main.
Proof.
  intros HW Hfit H. destruct location as [loc |].
  - apply main_number_location_inv in H.
    destruct H as (code & id_len & w1 & rnd & Hint & Hlen & Hrnd & ->).
    cbn [code_fits] in Hfit. unfold location_fits in Hfit.
    rewrite Hint, Hlen in Hfit. cbn [fst] in Hfit.
    apply Z.leb_le in Hfit.
    apply get_random_inv in Hrnd. destruct Hrnd as (Hk & _ & Hr & _).
    pose proof (len_str_pos code) as Hs.
    set (k := L - W - id_len) in *.
    assert (Hpk : 10 ^ k = 10 * 10 ^ (k - 1)).
    { rewrite <- Z.pow_succ_r by lia. f_equal. lia. }
    split; [lia |].
    destruct (str_fits id_len code Hfit) as [Hc | [Hneg Hc]].
    + left. replace (L - W) with (id_len + k) by lia.
      rewrite Z.pow_add_r by lia. nia.
    + right. replace (L - W - 1) with ((id_len - 1) + k) by lia.
      assert (2 <= id_len).
      { destruct (Z.eq_dec id_len 1) as [-> | ?]; [| lia].
        change (10 ^ (1 - 1)) with 1 in Hc. lia. }
      rewrite Z.pow_add_r by lia. nia.
  - cbn [main_number] in H. apply get_random_inv in H.
    destruct H as (Hk & _ & Hr & _). split; [assumption |]. left. lia.
Qed.

End Generation.

(** ** The format of a generated number *)

Section Format.

Lemma main_number_nonneg (location : option Location) (w w' : World) (L W main : Z) :
  code_nonneg location = true ->
  main_number L W location w = (Ok main, w') ->
  0 <= main.
Proof.
  intros Hnn H. destruct location as [loc |].
  - apply main_number_location_inv in H.
    destruct H as (code & id_len & w1 & rnd & Hint & _ & Hrnd & ->).
    cbn [code_nonneg] in Hnn. rewrite Hint in Hnn. apply Z.leb_le in Hnn.
    apply get_random_inv in Hrnd. destruct Hrnd as (Hk & _ & Hr & _).
    assert (0 < 10 ^ (L - W - id_len - 1)) by (apply Z.pow_pos_nonneg; lia).
    assert (0 <= 10 ^ (L - W - id_len)) by (apply Z.pow_nonneg; lia).
    nia.
  - cbn [main_number] in H. apply get_random_inv in H.
    destruct H as (Hk & _ & Hr & _).
    assert (0 < 10 ^ (L - W - 1)) by (apply Z.pow_pos_nonneg; lia). lia.
Qed.

(** Without a location a number is returned whenever the modulo is not
    zero and leaves room for a main number. *)
Lemma generate_insuree_number_returns (w : World) (L M : Z) :
  number_config (settings w) = (L, M) ->
  M <> 0 ->
  1 <= L - len (str M) ->
  exists id, generate_insuree_number None w = (Ok id, set_draws (S (draws w)) w).
Proof.
  intros Hc HM HL. unfold generate_insuree_number, bind, gets. rewrite Hc.
  cbn [main_number].
  destruct (get_random_total (L - len (str M)) w HL) as (r & ->).
  unfold py_mod, ret. destruct (Z.eqb_spec M 0) as [? | _]; [contradiction |].
  eexists; reflexivity.
Qed.




(** The digits of a number generated under the conditions of C7 and C8. *)
Lemma generated_number_digits (location : option Location) (w w' : World)
    (id : string) (L M : Z) :
  number_config (settings w) = (L, M) ->
  0 < M ->
  code_fits location w = true ->
  code_nonneg location = true ->
  generate_insuree_number location w = (Ok id, w') ->
  exists main,
    main_number L (len (str M)) location w = (Ok main, w')
    /\ 1 <= L - len (str M)
    /\ 0 <= main < 10 ^ (L - len (str M))
    /\ id = digits (Z.to_nat (L - len (str M))) main
            ++ digits (Z.to_nat (len (str M))) (main mod M).
Proof.
  intros Hc HM Hfit Hnn Hgen.
  destruct (generate_insuree_number_inv _ _ _ _ _ _ Hc Hgen) as (main & Hmain & _ & ->).
  pose proof (len_str_pos M) as HW.
  destruct (main_number_fits _ _ _ _ _ _ HW Hfit Hmain) as (HLW & Hf).
  pose proof (main_number_nonneg _ _ _ _ _ _ Hnn Hmain) as H0.
  assert (Hm : 0 <= main < 10 ^ (L - len (str M))) by (destruct Hf; lia).
  exists main. repeat split; try assumption; try lia.
  rewrite fmt_0d_digits by assumption.
  rewrite fmt_0d_digits; [reflexivity | assumption |].
  destruct (checksum_fits main M ltac:(lia)) as [? | [Hneg _]]; [assumption |].
  pose proof (Z.mod_pos_bound main M HM). lia.
Qed.

(** C7.  Let [L] and [M] be the length and the modulo in effect ([9] and
    [7] unless both are configured), with [M] positive.  Every identifier
    [generate_insuree_number] returns without a location, or with a
    location whose code is a non-negative integer printed in no more
    characters than the code length of the location's type, is a string of
    exactly [L] characters, all of them digits. *)
Theorem generated_number_length (location : option Location) (w w' : World)
    (id : string) (L M : Z) :
  number_config (settings w) = (L, M) ->
  0 < M ->
  code_fits location w = true ->
  code_nonneg location = true ->
  generate_insuree_number location w = (Ok id, w') ->
  len id = L /\ all_digits id = true.
Proof.
  intros Hc HM Hfit Hnn Hgen.
  destruct (generated_number_digits _ _ _ _ _ _ Hc HM Hfit Hnn Hgen)
    as (main & _ & HLW & _ & ->).
  pose proof (len_str_pos M) as HW.
  split.
  - unfold len at 1. rewrite length_app, !length_digits. lia.
  - now rewrite all_digits_app, !all_digits_digits.
Qed.

Lemma generated_number_length_witness :
  len "121123450" = 9 /\ all_digits "121123450" = true.
Proof.
  apply (generated_number_length (Some district_12) world0
           (set_draws 1 (set_id_len_cache [("D", Some 2)] world0)) "121123450" 9 7);
    reflexivity.
Defined.

(** C7, as stated, fails in three ways: a location whose code is longer
    than the code length of its type gives an identifier of [L + 1]
    characters; a location with a negative code and a negative modulo each
    put a minus sign in the identifier. *)
Lemma generated_number_length_counterexample :
  (fst (generate_insuree_number (Some district_123_closed) world0) = Ok "1231123456"
   /\ number_config (settings world0) = (9, 7)
   /\ len "1231123456" = 10)
  /\ (fst (generate_insuree_number (Some district_minus_5) world0) = Ok "-48876554"
      /\ all_digits "-48876554" = false)
  /\ (fst (generate_insuree_number None world_negative_modulo) = Ok "1012345-2"
      /\ all_digits "1012345-2" = false).
Proof. repeat split; reflexivity. Qed.

(** C8.  Let [L] and [M] be the length and the modulo in effect, [W] the
    number of characters of [M], and let the location's code be the
    non-negative integer [code], printed in no more characters than
    [id_len], the code length of the location's type.  An identifier
    [generate_insuree_number] returns for that location is [code] in
    [id_len] digits, then the [L - W - id_len] digits of the number drawn
    from the random source, then the checksum of the two together in [W]
    characters; it has [L] characters. *)
Theorem generated_number_location (loc : Location) (w w' : World) (id : string)
    (L M code id_len : Z) :
  number_config (settings w) = (L, M) ->
  int (loc_code loc) = Some code ->
  fst (get_location_id_len (loc_type loc) w) = Ok (Some id_len) ->
  0 <= code ->
  len (str code) <= id_len ->
  generate_insuree_number (Some loc) w = (Ok id, w') ->
  let W := len (str M) in
  let k := L - W - id_len in
  let rnd := 10 ^ (k - 1) + entropy w (draws w) mod (10 ^ k - 10 ^ (k - 1)) in
  1 <= k
  /\ 10 ^ (k - 1) <= rnd < 10 ^ k
  /\ id = digits (Z.to_nat id_len) code ++ digits (Z.to_nat k) rnd
          ++ fmt_0d W ((code * 10 ^ k + rnd) mod M)
  /\ len (fmt_0d W ((code * 10 ^ k + rnd) mod M)) = W
  /\ len id = L.
Proof.
  intros Hc Hint Hlen Hcode Hw Hgen W k rnd.
  destruct (generate_insuree_number_inv _ _ _ _ _ _ Hc Hgen) as (main & Hmain & HM & ->).
  apply main_number_location_inv in Hmain.
  destruct Hmain as (code' & id_len' & w1 & r & Hint' & Hlen' & Hrnd & ->).
  rewrite Hint in Hint'. injection Hint' as <-.
  rewrite Hlen' in Hlen. cbn [fst] in Hlen. injection Hlen as ->.
  destruct (get_location_id_len_cached _ _ _ _ Hlen') as (_ & Ht & Hd).
  apply get_random_inv in Hrnd. destruct Hrnd as (Hk & Hr & Hb & _).
  assert (He : entropy w1 = entropy w) by (unfold tables in Ht; congruence).
  rewrite He, Hd in Hr. fold W k in Hr, Hb, Hk. fold rnd in Hr. subst r.
  fold W k.
  pose proof (len_str_pos M) as HW. fold W in HW.
  pose proof (len_str_pos code) as Hs.
  destruct (str_fits id_len code Hw) as [Hfit | [? _]]; [| lia].
  assert (Hck : len (fmt_0d W ((code * 10 ^ k + rnd) mod M)) = W).
  { apply length_fmt_0d; [assumption | now apply checksum_fits]. }
  assert (Hmain : fmt_0d (L - W) (code * 10 ^ k + rnd)
                  = digits (Z.to_nat id_len) code ++ digits (Z.to_nat k) rnd).
  { rewrite fmt_0d_digits.
    - replace (Z.to_nat (L - W)) with (Z.to_nat id_len + Z.to_nat k)%nat by lia.
      pose proof (digits_split (Z.to_nat id_len) (Z.to_nat k) code rnd) as Hsp.
      rewrite Z2Nat.id in Hsp by lia. apply Hsp. lia.
    - lia.
    - replace (L - W) with (id_len + k) by lia.
      rewrite Z.pow_add_r by lia.
      assert (0 < 10 ^ (k - 1)) by (apply Z.pow_pos_nonneg; lia). nia. }
  repeat split; try assumption; try lia.
  - rewrite Hmain. now rewrite app_assoc_s.
  - rewrite Hmain. unfold len in *. rewrite !length_app, !length_digits. lia.
Qed.

Lemma generated_number_location_witness :
  1 <= 9 - len (str 7) - 2
  /\ 10 ^ (9 - len (str 7) - 2 - 1)
     <= 10 ^ (9 - len (str 7) - 2 - 1)
        + entropy world0 (draws world0)
          mod (10 ^ (9 - len (str 7) - 2) - 10 ^ (9 - len (str 7) - 2 - 1))
     < 10 ^ (9 - len (str 7) - 2)
  /\ "121123450"
     = digits (Z.to_nat 2) 12
       ++ digits (Z.to_nat (9 - len (str 7) - 2))
            (10 ^ (9 - len (str 7) - 2 - 1)
             + entropy world0 (draws world0)
               mod (10 ^ (9 - len (str 7) - 2) - 10 ^ (9 - len (str 7) - 2 - 1)))
       ++ fmt_0d (len (str 7))
            ((12 * 10 ^ (9 - len (str 7) - 2)
              + (10 ^ (9 - len (str 7) - 2 - 1)
                 + entropy world0 (draws world0)
                   mod (10 ^ (9 - len (str 7) - 2) - 10 ^ (9 - len (str 7) - 2 - 1))))
             mod 7)
  /\ len (fmt_0d (len (str 7))
            ((12 * 10 ^ (9 - len (str 7) - 2)
              + (10 ^ (9 - len (str 7) - 2 - 1)
                 + entropy world0 (draws world0)
                   mod (10 ^ (9 - len (str 7) - 2) - 10 ^ (9 - len (str 7) - 2 - 1))))
             mod 7))
     = len (str 7)
  /\ len "121123450" = 9.
Proof.
  apply (generated_number_location district_12 world0
           (set_draws 1 (set_id_len_cache [("D", Some 2)] world0)) "121123450" 9 7 12 2);
    try reflexivity; vm_compute; discriminate.
Defined.

(** C8, as stated, fails for a location whose code is longer than the
    code length of its type (the identifier has [L + 1] characters and its
    first [id_len] digits are not the code) and for a negative code (the
    identifier starts with a minus sign). *)
Lemma generated_number_location_counterexample :
  (int (loc_code district_123_closed) = Some 123
   /\ fst (get_location_id_len (loc_type district_123_closed) world0) = Ok (Some 2)
   /\ fst (generate_insuree_number (Some district_123_closed) world0) = Ok "1231123456"
   /\ number_config (settings world0) = (9, 7)
   /\ len "1231123456" = 10
   /\ int (substring 0 2 "1231123456") = Some 12)
  /\ (int (loc_code district_minus_5) = Some (-5)
      /\ fst (generate_insuree_number (Some district_minus_5) world0) = Ok "-48876554"
      /\ int (substring 0 2 "-48876554") = Some (-4)).
Proof. repeat split; reflexivity. Qed.

End Format.

(** ** [generate_insuree_numbers] *)

Section Batch.

Lemma preserves_ret {A : Type} (a : A) : preserves (ret a).
Proof. intros w r w' H. injection H as _ <-. reflexivity. Qed.

Lemma preserves_raise {A : Type} (e : exn) : preserves (@raise A e).
Proof. intros w r w' H. injection H as _ <-. reflexivity. Qed.

Lemma preserves_gets {A : Type} (f : World -> A) : preserves (gets f).
Proof. intros w r w' H. injection H as _ <-. reflexivity. Qed.

Lemma preserves_bind {A B : Type} (m : M A) (k : A -> M B) :
  preserves m -> (forall a, preserves (k a)) -> preserves (bind m k).
Proof.
  intros Hm Hk w r w'. unfold bind.
  destruct (m w) as [[a | e] w1] eqn:E; intros H.
  - rewrite (Hk a _ _ _ H). exact (Hm _ _ _ E).
  - injection H as _ <-. exact (Hm _ _ _ E).
Qed.

Lemma preserves_lift {A : Type} (e : exn) (o : option A) : preserves (lift e o).
Proof. destruct o; [apply preserves_ret | apply preserves_raise]. Qed.

Lemma preserves_get_random (k : Z) : preserves (get_random k).
Proof.
  unfold get_random. destruct (k <=? 0); [apply preserves_raise |].
  intros w r w'. unfold randint.
  destruct (_ <=? _); intros H; injection H as _ <-; reflexivity.
Qed.

Lemma preserves_get_location_id_len (ty : string) : preserves (get_location_id_len ty).
Proof.
  intros w r w'. unfold get_location_id_len.
  destruct (cache_lookup _ _); intros H; injection H as _ <-; reflexivity.
Qed.

Lemma preserves_sub_int (a : Z) (b : option Z) : preserves (sub_int a b).
Proof.
  unfold sub_int. apply preserves_bind; [apply preserves_lift | intros ?; apply preserves_ret].
Qed.

Lemma preserves_generate_insuree_number (location : option Location) :
  preserves (generate_insuree_number location).
Proof.
  unfold generate_insuree_number.
  apply preserves_bind; [apply preserves_gets | intros s].
  destruct (number_config s) as [L M].
  apply preserves_bind.
  - destruct location as [loc |]; [| apply preserves_get_random].
    unfold main_number.
    repeat (apply preserves_bind;
            [first [apply preserves_lift | apply preserves_get_location_id_len
                   | apply preserves_sub_int | apply preserves_get_random] | intros ?]).
    apply preserves_ret.
  - intros main. apply preserves_bind; [| intros ?; apply preserves_ret].
    unfold py_mod. destruct (M =? 0); [apply preserves_raise | apply preserves_ret].
Qed.

Lemma used_numbers_tables (w w' : World) :
  tables w' = tables w -> used_numbers w' = used_numbers w.
Proof.
  unfold tables, used_numbers. intros H.
  assert (Hi : tblInsuree w' = tblInsuree w) by congruence.
  assert (Hb : batch_numbers w' = batch_numbers w) by congruence.
  now rewrite Hi, Hb.
Qed.

Lemma existsb_eqb_false (A : Type) (f : A -> string) (n : string) (l : list A) :
  existsb (fun a => String.eqb (f a) n) l = false -> ~ In n (map f l).
Proof.
  induction l as [|a l IH]; simpl; [tauto |].
  intros H. apply orb_false_iff in H. destruct H as [H1 H2].
  intros [E | Hin]; [| now apply IH].
  rewrite E, String.eqb_refl in H1. discriminate.
Qed.

Lemma number_taken_false (n : string) (w : World) :
  existsb (has_chf_id n) (tblInsuree w) || existsb (has_number n) (batch_numbers w) = false ->
  ~ In n (used_numbers w).
Proof.
  intros H. apply orb_false_iff in H. destruct H as [H1 H2].
  unfold used_numbers. rewrite in_app_iff.
  intros [Hin | Hin]; revert Hin; now apply existsb_eqb_false.
Qed.

(** The number the retry loop returns is in use nowhere, and the loop
    writes to no table. *)
Lemma retry_loop_fresh (attempts : nat) (location : option Location) (w w' : World)
    (n : string) :
  retry_loop attempts location w = (Ok n, w') ->
  tables w' = tables w /\ ~ In n (used_numbers w).
Proof.
  revert w; induction attempts as [|a IH]; intros w; cbn [retry_loop].
  - discriminate.
  - unfold bind at 1.
    destruct (generate_insuree_number location w) as [[x | e] w1] eqn:E; [| discriminate].
    pose proof (preserves_generate_insuree_number _ _ _ _ E) as Ht.
    unfold bind, number_taken, gets.
    destruct (existsb (has_chf_id x) (tblInsuree w1)
              || existsb (has_number x) (batch_numbers w1)) eqn:Etaken.
    + intros H. destruct (IH _ H) as (Ht' & Hn).
      rewrite (used_numbers_tables _ _ Ht) in Hn. split; [congruence | assumption].
    + intros H. injection H as <- <-. split; [assumption |].
      rewrite <- (used_numbers_tables _ _ Ht). now apply number_taken_false.
Qed.



Lemma range_len_amount (amount : Z) : range_len 1 (amount + 1) = Z.to_nat amount.
Proof. unfold range_len. f_equal. lia. Qed.

Lemma populate_fresh (count : nat) (batch : InsureeBatch) (location : option Location)
    (w w' : World) :
  populate count batch location w = (Ok tt, w') ->
  exists numbers,
    List.length numbers = count
    /\ batch_numbers w' = (batch_numbers w ++ rows_of batch numbers)%list
    /\ tblInsuree w' = tblInsuree w
    /\ NoDup numbers
    /\ forall n, In n numbers -> ~ In n (used_numbers w).
Proof.
  revert w; induction count as [|c IH]; intros w; cbn [populate].
  - intros H. injection H as <-. exists []. cbn.
    rewrite app_nil_r. repeat split; [constructor | tauto].
  - unfold bind at 1.
    destruct (retry_loop (range_len 1 10000) location w) as [[x | e] w1] eqn:E;
      [| discriminate].
    destruct (retry_loop_fresh _ _ _ _ _ E) as (Ht & Hx).
    unfold bind, create_number, modify.
    intros H. destruct (IH _ H) as (numbers & Hlen & Hbn & Hins & Hnd & Hfresh).
    cbn [batch_numbers tblInsuree set_batch_numbers] in Hbn, Hins.
    assert (Hb1 : batch_numbers w1 = batch_numbers w)
      by (unfold tables in Ht; congruence).
    assert (Hi1 : tblInsuree w1 = tblInsuree w)
      by (unfold tables in Ht; congruence).
    exists (x :: numbers). repeat split.
    + cbn. now rewrite Hlen.
    + rewrite Hbn, Hb1, <- app_assoc. reflexivity.
    + congruence.
    + constructor; [| assumption].
      intros Hin. apply (Hfresh _ Hin).
      unfold used_numbers. cbn [batch_numbers set_batch_numbers].
      rewrite map_app, !in_app_iff. right. right. cbn. now left.
    + intros n [<- | Hin]; [assumption |].
      intros Hu. apply (Hfresh _ Hin).
      unfold used_numbers in *. cbn [batch_numbers tblInsuree set_batch_numbers].
      rewrite Hb1, Hi1, map_app, !in_app_iff. rewrite in_app_iff in Hu. tauto.
Qed.

(** C1.  When [generate_insuree_numbers] returns the batch, the rows it
    added to the number table are [amount] rows of that batch; their
    numbers are pairwise distinct, and each of them differs from every
    insuree identifier and from every number that was in the table when
    the row was added: the numbers of earlier batches and the numbers
    added before it in this call. *)
Theorem generated_batch_unique (amount audit_user : Z) (location : option Location)
    (c : option string) (w w' : World) (batch : InsureeBatch) :
  generate_insuree_numbers amount audit_user location c w = (Ok batch, w') ->
  exists numbers,
    batch_numbers w' = (batch_numbers w ++ rows_of batch numbers)%list
    /\ List.length numbers = Z.to_nat amount
    /\ NoDup numbers
    /\ tblInsuree w' = tblInsuree w
    /\ forall before n after,
         numbers = (before ++ n :: after)%list ->
         ~ In n (map chf_id (tblInsuree w'))
         /\ ~ In n (map insuree_number (batch_numbers w ++ rows_of batch before)%list).
Proof.
  unfold generate_insuree_numbers, bind at 1, create_batch.
  unfold bind.
  destruct (populate _ _ _ _) as [[[] | e] w1] eqn:E; [| discriminate].
  intros H. injection H as <- <-.
  destruct (populate_fresh _ _ _ _ _ E) as (numbers & Hlen & Hbn & Hins & Hnd & Hfresh).
  cbn [batch_numbers tblInsuree set_batches] in Hbn, Hins.
  exists numbers. repeat split; try assumption.
  - now rewrite Hlen, range_len_amount.
  - rewrite Hins. intros Hin.
    apply (Hfresh n); [subst numbers; apply in_elt |].
    unfold used_numbers. cbn [tblInsuree set_batches]. apply in_app_iff. now left.
  - rewrite map_app, in_app_iff. intros [Hin | Hin].
    + apply (Hfresh n); [subst numbers; apply in_elt |].
      unfold used_numbers. cbn [batch_numbers set_batches]. apply in_app_iff. now right.
    + subst numbers. apply NoDup_remove_2 in Hnd. apply Hnd.
      apply in_app_iff. left.
      unfold rows_of in Hin. rewrite map_map in Hin. cbn in Hin.
      now rewrite map_id in Hin.
Qed.

Lemma generated_batch_unique_witness :
  exists numbers,
    batch_numbers (snd (generate_insuree_numbers 3 1 None None world0))
    = (batch_numbers world0
       ++ rows_of {| batch_id := 1; batch_location := None; audit_user_id := 1;
                     archived := false; comment := None |} numbers)%list
    /\ List.length numbers = Z.to_nat 3
    /\ NoDup numbers
    /\ tblInsuree (snd (generate_insuree_numbers 3 1 None None world0)) = tblInsuree world0
    /\ forall before n after,
         numbers = (before ++ n :: after)%list ->
         ~ In n (map chf_id (tblInsuree (snd (generate_insuree_numbers 3 1 None None world0))))
         /\ ~ In n (map insuree_number
                      (batch_numbers world0
                       ++ rows_of {| batch_id := 1; batch_location := None;
                                     audit_user_id := 1; archived := false;
                                     comment := None |} before)%list).
Proof.
  apply (generated_batch_unique 3 1 None None world0).
  vm_compute. reflexivity.
Defined.

(** C4, at [world_crowded]: 9999 candidates collide, the 10000th would
    be free.  The loop [range(1, 10000)] stops after the 9999th and raises
    the exception whose message says 10000 attempts; the candidate a
    10000th attempt would draw is "22", which is in neither store. *)
Theorem retry_loop_stops_after_9999 :
  fst (generate_insuree_numbers 1 1 None None world_crowded)
  = Raise (Exception_ "Could not generate an insuree id after 10000 attempts.")
  /\ Z.of_nat (draws (snd (generate_insuree_numbers 1 1 None None world_crowded))) = 9999
  /\ batch_numbers (snd (generate_insuree_numbers 1 1 None None world_crowded)) = []
  /\ fst (generate_insuree_number None
            (snd (generate_insuree_numbers 1 1 None None world_crowded))) = Ok "22"
  /\ fst (number_taken "22" (snd (generate_insuree_numbers 1 1 None None world_crowded)))
     = Ok false.
Proof. vm_compute. repeat split; reflexivity. Qed.

(** The first candidate in neither store is the one accepted. *)
Lemma retry_loop_accepts (attempts : nat) (location : option Location) (w w' : World)
    (n : string) :
  generate_insuree_number location w = (Ok n, w') ->
  fst (number_taken n w') = Ok false ->
  retry_loop (S attempts) location w = (Ok n, w').
Proof.
  intros Hg Ht. cbn [retry_loop]. unfold bind. rewrite Hg.
  unfold number_taken, gets in *. cbn [fst] in Ht. injection Ht as ->. reflexivity.
Qed.

Lemma retry_loop_retries (attempts : nat) (location : option Location) (w w' : World)
    (n : string) :
  generate_insuree_number location w = (Ok n, w') ->
  fst (number_taken n w') = Ok true ->
  retry_loop (S attempts) location w = retry_loop attempts location w'.
Proof.
  intros Hg Ht. cbn [retry_loop]. unfold bind. rewrite Hg.
  unfold number_taken, gets in *. cbn [fst] in Ht. injection Ht as ->. reflexivity.
Qed.

End Batch.

(** ** Locations that cannot be encoded *)

Section LocationErrors.





Lemma max_of_nil (l : list Z) : max_of l = None -> l = [].
Proof. destruct l as [|x r]; [reflexivity |]. simpl. destruct (max_of r); discriminate. Qed.

Lemma filter_none {A : Type} (f : A -> bool) (l : list A) :
  (forall a, In a l -> f a = false) -> filter f l = [].
Proof.
  induction l as [|a l IH]; intros H; [reflexivity |].
  simpl. rewrite (H a (or_introl eq_refl)). apply IH. intros b Hb. apply H. now right.
Qed.




End LocationErrors.

(** ** [export_insurees] *)

Section ExportInsurees.

Lemma get_insurees_to_export_some (batch : option InsureeBatch) (amount : option Z)
    (w : World) :
  exists q, get_insurees_to_export batch amount w = (Ok (Some q), w)
            /\ sql_batch q = option_map batch_id batch.
Proof. unfold get_insurees_to_export, bind, gets, ret. eexists; split; reflexivity. Qed.

Lemma run_query_frame (q : RawQuerySet) (w : World) :
  run_query q w = (fst (run_query q w), w).
Proof.
  unfold run_query. destruct (row_cap q) as [n |]; [| reflexivity].
  destruct (n <? 0); reflexivity.
Qed.

(** What [export_insurees] does, by the outcome of its steps. *)
Lemma export_insurees_run (batch : option InsureeBatch) (amount : option Z)
    (dry_run : bool) (w : World) :
  export_insurees batch amount dry_run w =
  match selection batch amount w with
  | Raise e => (Raise e, w)
  | Ok sel =>
      match bundle (map fst sel) [] ["index.csv"] [] with
      | Raise e => (Raise e, w)
      | Ok b =>
          (if zip_write_ok w then Ok (Some (archive_of b)) else Raise OSError,
           if dry_run then w else marked sel w)
      end
  end.
Proof.
  unfold export_insurees, selection.
  destruct (get_insurees_to_export_some batch amount w) as (q & Hq & _).
  unfold bind at 1. rewrite Hq. cbn [fst].
  unfold bind at 1. pose proof (run_query_frame q w) as F.
  destruct (run_query q w) as [rs w1]. cbn [fst] in F |- *. injection F as ->.
  destruct rs as [sel | e]; [| reflexivity].
  unfold bind at 1, of_result.
  destruct (bundle (map fst sel) [] ["index.csv"] []) as [[[rows ftz] files] | e];
    [| reflexivity].
  unfold bind, write_zip, update_print_date, modify, ret, archive_of, marked.
  destruct dry_run; cbn [negb zip_write_ok set_batch_numbers];
    destruct (zip_write_ok w); reflexivity.
Qed.

Lemma in_firstn {A : Type} (n : nat) (l : list A) (a : A) : In a (firstn n l) -> In a l.
Proof.
  revert l; induction n as [|n IH]; intros [|x l]; simpl; try tauto.
  intros [-> | H]; [now left | right; now apply IH].
Qed.

(** A selected row joins an insuree of the table to an unprinted number
    of the table that carries the insuree's identifier and is in the
    requested batch. *)
Lemma selection_sound (batch : option InsureeBatch) (amount : option Z) (w : World)
    (sel : list (Insuree * BatchInsureeNumber)) (i : Insuree) (r : BatchInsureeNumber) :
  selection batch amount w = Ok sel ->
  In (i, r) sel ->
  In i (tblInsuree w) /\ In r (batch_numbers w)
  /\ chf_id i = insuree_number r /\ print_date r = None
  /\ forall b, batch = Some b -> bin_batch r = batch_id b.
Proof.
  unfold selection.
  destruct (get_insurees_to_export_some batch amount w) as (q & -> & Hb). cbn [fst].
  intros Hsel Hin.
  assert (Hj : In (i, r) (joined q w)).
  { unfold run_query in Hsel. destruct (row_cap q) as [n |].
    - destruct (n <? 0); [discriminate |]. cbn [fst] in Hsel. injection Hsel as <-.
      eapply in_firstn; eassumption.
    - cbn [fst] in Hsel. now injection Hsel as <-. }
  unfold joined in Hj. apply in_flat_map in Hj. destruct Hj as (i' & Hi & Hj).
  apply in_map_iff in Hj. destruct Hj as (r' & E & Hr). injection E as -> ->.
  apply filter_In in Hr. destruct Hr as (Hr & Hjoin).
  unfold joins in Hjoin. apply andb_true_iff in Hjoin. destruct Hjoin as (Hjoin & Hbatch).
  apply andb_true_iff in Hjoin. destruct Hjoin as (Hid & Hpd).
  apply String.eqb_eq in Hid.
  repeat split; try assumption.
  - now destruct (print_date r).
  - intros b ->. unfold batch_matches in Hbatch. rewrite Hb in Hbatch. cbn in Hbatch.
    now apply Nat.eqb_eq.
Qed.


Lemma in_ids_iff (ids : list string) (r : BatchInsureeNumber) :
  in_ids ids r = true <-> In (insuree_number r) ids.
Proof.
  unfold in_ids. rewrite existsb_exists. split.
  - intros (x & Hx & E). apply String.eqb_eq in E. now rewrite E.
  - intros H. exists (insuree_number r). split; [assumption | apply String.eqb_refl].
Qed.






(** C5, at [world_all_printed]: nothing is selected, and the call returns
    an archive that holds an empty [index.csv], not [None].  The test
    [to_export is None] of line 92 compares the query set, which
    [get_insurees_to_export] always returns, so it never holds.  No row is
    changed. *)
Theorem export_of_nothing_returns_archive :
  selection None None world_all_printed = Ok []
  /\ fst (get_insurees_to_export None None world_all_printed)
     = Ok (Some {| sql_top := None; sql_batch := None; sql_limit := None |})
  /\ export_insurees None None false world_all_printed
     = (Ok (Some [("index.csv", CsvFile [])]), world_all_printed).
Proof. repeat split; reflexivity. Qed.


(** An empty selection changes no row, with or without [dry_run]. *)
Lemma export_of_nothing_frame (batch : option InsureeBatch) (amount : option Z)
    (dry_run : bool) (w : World) :
  selection batch amount w = Ok [] ->
  batch_numbers (snd (export_insurees batch amount dry_run w)) = batch_numbers w
  /\ fst (export_insurees batch amount dry_run w)
     = if zip_write_ok w then Ok (Some [("index.csv", CsvFile [])]) else Raise OSError.
Proof.
  intros Hsel. rewrite export_insurees_run, Hsel. cbn.
  destruct dry_run; cbn; split; try reflexivity.
  unfold mark_printed, in_ids. cbn. apply map_id.
Qed.



End ExportInsurees.
(** * Further properties *)

(** ** Random numbers and the number format *)

Section RandomNumbers.

Lemma ndigits_exact (k r : Z) :
  1 <= k -> 10 ^ (k - 1) <= r < 10 ^ k -> Z.of_nat (ndigits r) = k.
Proof.
  intros Hk Hr.
  assert (0 < 10 ^ (k - 1)) by (apply Z.pow_pos_nonneg; lia).
  destruct (ndigits_spec r ltac:(lia)) as (H1 & H2 & H3).
  assert (Hle : k - 1 < Z.of_nat (ndigits r)).
  { apply (Z.pow_lt_mono_r_iff 10); lia. }
  destruct H3 as [E | H3]; [lia |].
  assert (Z.of_nat (ndigits r) - 1 < k); [| lia].
  apply (Z.pow_lt_mono_r_iff 10); lia.
Qed.

(** X1.  For a length of at least one, [get_random] makes exactly one
    draw and returns a number of the inclusive range
    [10 ^ (length - 1) .. 10 ^ length - 1], whose decimal text has exactly
    [length] characters.  For a length of zero or less it raises and draws
    nothing. *)
Theorem get_random_digits (length : Z) (w : World) :
  (1 <= length ->
   exists r,
     get_random length w = (Ok r, set_draws (S (draws w)) w)
     /\ 10 ^ (length - 1) <= r <= 10 ^ length - 1
     /\ len (str r) = length)
  /\ (length <= 0 -> exists e, get_random length w = (Raise e, w)).
Proof.
  split.
  - intros Hl. destruct (get_random_total length w Hl) as (r & Hr).
    exists r. split; [assumption |].
    apply get_random_inv in Hr. destruct Hr as (_ & _ & Hb & _).
    split; [lia |].
    assert (0 < 10 ^ (length - 1)) by (apply Z.pow_pos_nonneg; lia).
    unfold str, len. destruct (Z.ltb_spec r 0) as [? | _]; [lia |].
    rewrite length_digits. now apply ndigits_exact.
  - intros Hl. unfold get_random, raise.
    destruct (Z.leb_spec length 0) as [_ | ?]; [| lia].
    eexists; reflexivity.
Qed.

(** X2.  Without a location, with [L] and [M] the length and modulo in
    effect and [W] the number of characters of [M],
    [generate_insuree_number] returns an identifier exactly when [M] is
    not zero and [L - W] is at least one.  With [M] zero it draws the main
    number and then raises [ZeroDivisionError]; with [L - W] below one it
    raises before drawing. *)
Theorem generate_without_location (w : World) (L M : Z) :
  number_config (settings w) = (L, M) ->
  (M <> 0 -> 1 <= L - len (str M) ->
   exists id, generate_insuree_number None w = (Ok id, set_draws (S (draws w)) w))
  /\ (M = 0 -> 1 <= L - len (str M) ->
      generate_insuree_number None w
      = (Raise ZeroDivisionError, set_draws (S (draws w)) w))
  /\ (L - len (str M) <= 0 ->
      exists e, generate_insuree_number None w = (Raise e, w)).
Proof.
  intros Hc. split; [| split].
  - intros HM HL. now apply (generate_insuree_number_returns w L M).
  - intros -> HL. unfold generate_insuree_number, bind, gets. rewrite Hc.
    cbn [main_number].
    destruct (get_random_total (L - len (str 0)) w HL) as (r & ->).
    reflexivity.
  - intros HL. unfold generate_insuree_number, bind, gets. rewrite Hc.
    cbn [main_number]. unfold get_random, raise.
    destruct (Z.leb_spec (L - len (str M)) 0) as [_ | ?]; [| lia].
    eexists; reflexivity.
Qed.

Lemma generate_without_location_witness :
  (7 <> 0 -> 1 <= 9 - len (str 7) ->
   exists id, generate_insuree_number None world0 = (Ok id, set_draws (S (draws world0)) world0))
  /\ (7 = 0 -> 1 <= 9 - len (str 7) ->
      generate_insuree_number None world0
      = (Raise ZeroDivisionError, set_draws (S (draws world0)) world0))
  /\ (9 - len (str 7) <= 0 ->
      exists e, generate_insuree_number None world0 = (Raise e, world0)).
Proof.
  apply (generate_without_location world0 9 7). reflexivity.
Defined.

End RandomNumbers.

(** ** Draws, the memoisation table and partial batches *)

Section Bookkeeping.

Lemma cache_extends_refl (w : World) : cache_extends w w.
Proof. intros ty v H. exact H. Qed.

Lemma cache_extends_trans (w1 w2 w3 : World) :
  cache_extends w1 w2 -> cache_extends w2 w3 -> cache_extends w1 w3.
Proof. intros H12 H23 ty v H. apply H23, H12, H. Qed.

Lemma advances_ret {A : Type} (a : A) : advances 0 (ret a).
Proof.
  intros w r w' H. injection H as _ <-. split; [lia | apply cache_extends_refl].
Qed.

Lemma advances_raise {A : Type} (e : exn) : advances 0 (@raise A e).
Proof.
  intros w r w' H. injection H as _ <-. split; [lia | apply cache_extends_refl].
Qed.

Lemma advances_gets {A : Type} (f : World -> A) : advances 0 (gets f).
Proof.
  intros w r w' H. injection H as _ <-. split; [lia | apply cache_extends_refl].
Qed.

Lemma advances_lift {A : Type} (e : exn) (o : option A) : advances 0 (lift e o).
Proof. destruct o; [apply advances_ret | apply advances_raise]. Qed.

Lemma advances_weaken {A : Type} (n k : nat) (m : M A) :
  (n <= k)%nat -> advances n m -> advances k m.
Proof.
  intros Hle Hm w r w' H. destruct (Hm _ _ _ H) as (Hd & Hc). split; [lia | assumption].
Qed.

Lemma advances_bind {A B : Type} (n k : nat) (m : M A) (f : A -> M B) :
  advances n m -> (forall a, advances k (f a)) -> advances (n + k) (bind m f).
Proof.
  intros Hm Hf w r w'. unfold bind.
  destruct (m w) as [[a | e] w1] eqn:E; intros H.
  - destruct (Hm _ _ _ E) as (Hd1 & Hc1). destruct (Hf a _ _ _ H) as (Hd2 & Hc2).
    split; [lia | eapply cache_extends_trans; eassumption].
  - injection H as _ <-. destruct (Hm _ _ _ E) as (Hd1 & Hc1). split; [lia | assumption].
Qed.

Lemma advances_get_random (k : Z) : advances 1 (get_random k).
Proof.
  unfold get_random.
  destruct (k <=? 0); [apply (advances_weaken 0); [lia | apply advances_raise] |].
  intros w r w'. unfold randint.
  destruct (_ <=? _); intros H; injection H as _ <-; cbn [draws set_draws];
    (split; [lia | intros ty v Hl; exact Hl]).
Qed.

Lemma advances_get_location_id_len (ty : string) : advances 0 (get_location_id_len ty).
Proof.
  intros w r w'. unfold get_location_id_len.
  destruct (cache_lookup ty (id_len_cache w)) as [v0 |] eqn:E;
    intros H; injection H as _ <-.
  - split; [lia | apply cache_extends_refl].
  - cbn [draws set_id_len_cache]. split; [lia |].
    intros ty' v Hl. cbn [id_len_cache set_id_len_cache cache_lookup].
    destruct (String.eqb_spec ty ty') as [-> | _]; [congruence | assumption].
Qed.

Lemma advances_sub_int (a : Z) (b : option Z) : advances 0 (sub_int a b).
Proof.
  unfold sub_int. apply (advances_bind 0 0); [apply advances_lift | intros ?; apply advances_ret].
Qed.

Lemma advances_main_number (L W : Z) (location : option Location) :
  advances 1 (main_number L W location).
Proof.
  destruct location as [loc |]; [| apply advances_get_random].
  unfold main_number.
  apply (advances_bind 0 1); [apply advances_lift | intros code].
  apply (advances_bind 0 1); [apply advances_get_location_id_len | intros id_len].
  apply (advances_bind 0 1); [apply advances_sub_int | intros e].
  apply (advances_bind 0 1); [apply advances_get_location_id_len | intros id_len'].
  apply (advances_bind 0 1); [apply advances_sub_int | intros rnd_len].
  apply (advances_bind 1 0); [apply advances_get_random | intros rnd].
  apply advances_ret.
Qed.

Lemma advances_generate_insuree_number (location : option Location) :
  advances 1 (generate_insuree_number location).
Proof.
  unfold generate_insuree_number.
  apply (advances_bind 0 1); [apply advances_gets | intros s].
  destruct (number_config s) as [L M].
  apply (advances_bind 1 0); [apply advances_main_number | intros main].
  apply (advances_bind 0 0); [| intros ?; apply advances_ret].
  unfold py_mod. destruct (M =? 0); [apply advances_raise | apply advances_ret].
Qed.

(** X3.  Whatever it returns or raises, [generate_insuree_number] writes
    to no table, makes at most one draw from the random source, and
    changes no answer the memoisation table already gives; an answer it
    adds is for the type of the location it was given. *)
Theorem generate_insuree_number_frame (location : option Location) (w : World) :
  tables (snd (generate_insuree_number location w)) = tables w
  /\ (draws w <= draws (snd (generate_insuree_number location w)) <= S (draws w))%nat
  /\ cache_extends w (snd (generate_insuree_number location w))
  /\ forall ty,
       cache_lookup ty (id_len_cache (snd (generate_insuree_number location w)))
       <> cache_lookup ty (id_len_cache w) ->
       exists loc, location = Some loc /\ loc_type loc = ty.
Proof.
  destruct (generate_insuree_number location w) as [r w'] eqn:E. cbn [snd].
  split; [exact (preserves_generate_insuree_number _ _ _ _ E) |].
  destruct (advances_generate_insuree_number _ _ _ _ E) as (Hd & Hc).
  split; [lia |]. split; [assumption |].
  intros ty Hne.
  unfold generate_insuree_number, bind at 1, gets in E.
  destruct (number_config (settings w)) as [L M].
  destruct location as [loc |].
  - exists loc. split; [reflexivity |].
    destruct (String.eqb_spec (loc_type loc) ty) as [? | Hty]; [assumption |].
    exfalso. apply Hne.
    unfold bind at 1 in E.
    destruct (main_number L (len (str M)) (Some loc) w) as [r1 w1] eqn:E1.
    assert (Hw : id_len_cache w' = id_len_cache w1).
    { destruct r1 as [main | e]; [| now injection E as _ <-].
      unfold py_mod, bind, ret, raise in E.
      destruct (M =? 0); now injection E as _ <-. }
    rewrite Hw. clear E Hw Hne Hd Hc.
    unfold main_number, bind at 1, lift in E1.
    destruct (int (loc_code loc)) as [code |];
      [| unfold raise in E1; now injection E1 as _ <-].
    unfold ret at 1 in E1. unfold bind at 1 in E1.
    destruct (get_location_id_len (loc_type loc) w) as [r2 w2] eqn:E2.
    assert (H2 : cache_lookup ty (id_len_cache w2) = cache_lookup ty (id_len_cache w)).
    { unfold get_location_id_len in E2.
      destruct (cache_lookup (loc_type loc) (id_len_cache w)); injection E2 as _ <-;
        [reflexivity |].
      cbn [id_len_cache set_id_len_cache cache_lookup].
      destruct (String.eqb_spec (loc_type loc) ty); [contradiction | reflexivity]. }
    rewrite <- H2.
    destruct r2 as [id_len | e]; [| now injection E1 as _ <-].
    destruct (get_location_id_len_cached _ _ _ _ E2) as (E3 & _ & _).
    unfold sub_int, bind, lift, ret, raise in E1.
    destruct id_len as [n |]; [| now injection E1 as _ <-].
    rewrite E3 in E1.
    unfold get_random, randint, raise in E1.
    destruct (_ <=? 0); [now injection E1 as _ <- |].
    destruct (_ <=? _); now injection E1 as _ <-.
  - exfalso. apply Hne.
    unfold bind, main_number, get_random, randint, raise, py_mod, ret in E.
    destruct (_ <=? 0); [now injection E as _ <- |].
    destruct (_ <=? _); [| now injection E as _ <-].
    destruct (M =? 0); now injection E as _ <-.
Qed.

Lemma preserves_retry_loop (attempts : nat) (location : option Location) :
  preserves (retry_loop attempts location).
Proof.
  induction attempts as [|n IH]; cbn [retry_loop]; [apply preserves_raise |].
  apply preserves_bind; [apply preserves_generate_insuree_number | intros x].
  apply preserves_bind; [apply preserves_gets | intros taken].
  destruct taken; [assumption | apply preserves_ret].
Qed.

Lemma advances_retry_loop (attempts : nat) (location : option Location) :
  advances attempts (retry_loop attempts location).
Proof.
  induction attempts as [|n IH]; cbn [retry_loop]; [apply advances_raise |].
  apply (advances_bind 1 n); [apply advances_generate_insuree_number | intros x].
  apply (advances_bind 0 n); [apply advances_gets | intros taken].
  destruct taken; [assumption |].
  apply (advances_weaken 0); [lia | apply advances_ret].
Qed.

Lemma advances_create_number (batch : InsureeBatch) (n : string) :
  advances 0 (create_number batch n).
Proof.
  intros w r w' H. injection H as _ <-. split; [cbn; lia | intros ty v Hl; exact Hl].
Qed.

Lemma advances_populate (count : nat) (batch : InsureeBatch) (location : option Location) :
  advances (count * range_len 1 10000) (populate count batch location).
Proof.
  induction count as [|c IH]; cbn [populate]; [apply advances_ret |].
  replace (S c * range_len 1 10000)%nat
    with (range_len 1 10000 + (0 + c * range_len 1 10000))%nat by lia.
  apply advances_bind; [apply advances_retry_loop | intros x].
  apply advances_bind; [apply advances_create_number | intros ?]. exact IH.
Qed.

(** X4.  [generate_insuree_numbers] ends after at most 9999 draws per
    requested number, whether it returns the batch or raises. *)
Theorem generate_insuree_numbers_draws (amount audit_user : Z)
    (location : option Location) (c : option string) (w : World) :
  Z.of_nat (draws w)
  <= Z.of_nat (draws (snd (generate_insuree_numbers amount audit_user location c w)))
  <= Z.of_nat (draws w) + 9999 * Z.max 0 amount.
Proof.
  destruct (generate_insuree_numbers amount audit_user location c w) as [r w'] eqn:E.
  unfold generate_insuree_numbers, bind at 1, create_batch in E.
  match type of E with
  | bind (populate ?n ?b ?l) ?k ?w1 = _ =>
      assert (H : advances (n * range_len 1 10000 + 0) (bind (populate n b l) k))
        by (apply advances_bind; [apply advances_populate | intros ?; apply advances_ret]);
      destruct (H _ _ _ E) as (Hd & _)
  end.
  cbn [snd draws set_batches] in *.
  rewrite range_len_amount in Hd.
  assert (Hr : Z.of_nat (range_len 1 10000) = 9999) by reflexivity.
  assert (Hp : Z.of_nat (Z.to_nat amount * range_len 1 10000)
               = 9999 * Z.max 0 amount).
  { rewrite Nat2Z.inj_mul, Hr. lia. }
  destruct Hd as (Hd1 & Hd2).
  apply Nat2Z.inj_le in Hd1, Hd2.
  rewrite Nat.add_0_r, Nat2Z.inj_add, Hp in Hd2.


  split; assumption.
Qed.

End Bookkeeping.

(** ** Batches that end early, empty batches, exhaustion *)

Section PartialBatches.

Lemma populate_any (count : nat) (batch : InsureeBatch) (location : option Location)
    (w w' : World) (r : result unit) :
  populate count batch location w = (r, w') ->
  exists numbers,
    batch_numbers w' = (batch_numbers w ++ rows_of batch numbers)%list
    /\ tblInsuree w' = tblInsuree w
    /\ batches w' = batches w
    /\ NoDup numbers
    /\ (forall n, In n numbers -> ~ In n (used_numbers w))
    /\ match r with
       | Ok _ => List.length numbers = count
       | Raise _ => (List.length numbers < count)%nat
       end.
Proof.
  revert w; induction count as [|c IH]; intros w; cbn [populate].
  - intros H. injection H as <- <-. exists []. cbn.
    rewrite app_nil_r. repeat split; [constructor | tauto].
  - unfold bind at 1.
    destruct (retry_loop (range_len 1 10000) location w) as [[x | e] w1] eqn:E.
    + destruct (retry_loop_fresh _ _ _ _ _ E) as (Ht & Hx).
      unfold bind, create_number, modify.
      intros H. destruct (IH _ H) as (numbers & Hbn & Hins & Hbs & Hnd & Hfresh & Hlen).
      cbn [batch_numbers tblInsuree batches set_batch_numbers] in Hbn, Hins, Hbs.
      assert (Hb1 : batch_numbers w1 = batch_numbers w)
        by (unfold tables in Ht; congruence).
      assert (Hi1 : tblInsuree w1 = tblInsuree w)
        by (unfold tables in Ht; congruence).
      assert (Hs1 : batches w1 = batches w)
        by (unfold tables in Ht; congruence).
      exists (x :: numbers). repeat split.
      * rewrite Hbn, Hb1, <- app_assoc. reflexivity.
      * congruence.
      * congruence.
      * constructor; [| assumption].
        intros Hin. apply (Hfresh _ Hin).
        unfold used_numbers. cbn [batch_numbers set_batch_numbers].
        rewrite map_app, !in_app_iff. right. right. cbn. now left.
      * intros n [<- | Hin]; [assumption |].
        intros Hu. apply (Hfresh _ Hin).
        unfold used_numbers in *. cbn [batch_numbers tblInsuree set_batch_numbers].
        rewrite Hb1, Hi1, map_app, !in_app_iff. rewrite in_app_iff in Hu. tauto.
      * destruct r; cbn [List.length]; lia.
    + intros H. injection H as <- <-.
      pose proof (preserves_retry_loop _ _ _ _ _ E) as Ht.
      exists []. cbn [rows_of map List.length]. rewrite app_nil_r.
      repeat split; try (unfold tables in Ht; congruence); [constructor | tauto | lia].
Qed.

(** X5.  However [generate_insuree_numbers] ends, the batch row it
    created first stays, with the location, user and comment given and not
    archived, and so do the number rows written before the end: they are
    rows of that batch, their numbers are pairwise distinct and were in
    use nowhere before the call.  When the call raises, they are fewer
    than [amount]; when it returns, it returns that batch and they are
    [amount]. *)
Theorem generate_insuree_numbers_partial (amount audit_user : Z)
    (location : option Location) (c : option string) (w w' : World)
    (r : result InsureeBatch) :
  generate_insuree_numbers amount audit_user location c w = (r, w') ->
  exists batch numbers,
    batches w' = (batches w ++ [batch])%list
    /\ batch_location batch = location
    /\ audit_user_id batch = audit_user
    /\ comment batch = c
    /\ archived batch = false
    /\ batch_numbers w' = (batch_numbers w ++ rows_of batch numbers)%list
    /\ tblInsuree w' = tblInsuree w
    /\ NoDup numbers
    /\ (forall n, In n numbers -> ~ In n (used_numbers w))
    /\ match r with
       | Ok b => b = batch /\ List.length numbers = Z.to_nat amount
       | Raise _ => (List.length numbers < Z.to_nat amount)%nat
       end.
Proof.
  unfold generate_insuree_numbers, bind at 1, create_batch. unfold bind.
  destruct (populate _ _ _ _) as [r1 w1] eqn:E.
  destruct (populate_any _ _ _ _ _ _ E) as (numbers & Hbn & Hins & Hbs & Hnd & Hfresh & Hlen).
  cbn [batch_numbers tblInsuree batches set_batches] in Hbn, Hins, Hbs.
  rewrite range_len_amount in Hlen.
  intros H.
  eexists. exists numbers.
  assert (Hw : w1 = w') by (destruct r1; now injection H as _ <-).
  subst w1.
  split; [exact Hbs |].
  repeat split; try assumption.
  destruct r1 as [[] | e]; injection H as <-; [split; [reflexivity | assumption] | assumption].
Qed.

Lemma generate_insuree_numbers_partial_witness :
  exists batch numbers,
    batches (snd (generate_insuree_numbers 2 1 None None world_modulo_zero))
    = (batches world_modulo_zero ++ [batch])%list
    /\ batch_location batch = None
    /\ audit_user_id batch = 1
    /\ comment batch = None
    /\ archived batch = false
    /\ batch_numbers (snd (generate_insuree_numbers 2 1 None None world_modulo_zero))
       = (batch_numbers world_modulo_zero ++ rows_of batch numbers)%list
    /\ tblInsuree (snd (generate_insuree_numbers 2 1 None None world_modulo_zero))
       = tblInsuree world_modulo_zero
    /\ NoDup numbers
    /\ (forall n, In n numbers -> ~ In n (used_numbers world_modulo_zero))
    /\ (List.length numbers < Z.to_nat 2)%nat.
Proof.
  apply (generate_insuree_numbers_partial 2 1 None None world_modulo_zero
           (snd (generate_insuree_numbers 2 1 None None world_modulo_zero))
           (Raise ZeroDivisionError)).
  vm_compute. reflexivity.
Defined.

(** X6.  With an [amount] of zero or less, [generate_insuree_numbers] does
    what creating the batch does and nothing else: it returns the new,
    empty batch, draws nothing and raises nothing, whatever the location. *)
Theorem generate_insuree_numbers_nothing (amount audit_user : Z)
    (location : option Location) (c : option string) (w : World) :
  amount <= 0 ->
  generate_insuree_numbers amount audit_user location c w
  = create_batch location audit_user c w.
Proof.
  intros Ha. unfold generate_insuree_numbers, bind at 1.
  destruct (create_batch location audit_user c w) as [[b | e] w1] eqn:E;
    [| reflexivity].
  rewrite range_len_amount.
  replace (Z.to_nat amount) with 0%nat by lia. reflexivity.
Qed.

Lemma generate_insuree_numbers_nothing_witness :
  generate_insuree_numbers 0 1 (Some district_R1D1) None world0
  = create_batch (Some district_R1D1) 1 None world0.
Proof.
  apply (generate_insuree_numbers_nothing 0 1 (Some district_R1D1) None world0). lia.
Defined.

Lemma existsb_eqb_true (A : Type) (f : A -> string) (n : string) (l : list A) :
  In n (map f l) -> existsb (fun a => String.eqb (f a) n) l = true.
Proof.
  intros H. apply in_map_iff in H. destruct H as (a & E & Ha).
  apply existsb_exists. exists a. split; [assumption |]. rewrite E. apply String.eqb_refl.
Qed.

Lemma number_taken_true (n : string) (w : World) :
  In n (used_numbers w) ->
  existsb (has_chf_id n) (tblInsuree w) || existsb (has_number n) (batch_numbers w) = true.
Proof.
  unfold used_numbers. rewrite in_app_iff. intros [H | H]; apply orb_true_iff.
  - left. now apply existsb_eqb_true.
  - right. now apply existsb_eqb_true.
Qed.

(** Without a location, the identifier returned is the candidate of a
    main number of the range. *)
Lemma generate_insuree_number_candidate (w : World) (L M : Z) :
  number_config (settings w) = (L, M) ->
  M <> 0 ->
  1 <= L - len (str M) ->
  exists main,
    10 ^ (L - len (str M) - 1) <= main < 10 ^ (L - len (str M))
    /\ generate_insuree_number None w
       = (Ok (candidate (settings w) main), set_draws (S (draws w)) w).
Proof.
  intros Hc HM HL.
  destruct (generate_insuree_number_returns w L M Hc HM HL) as (id & Hid).
  destruct (generate_insuree_number_inv _ _ _ _ _ _ Hc Hid) as (main & Hmain & _ & ->).
  cbn [main_number] in Hmain. apply get_random_inv in Hmain.
  destruct Hmain as (_ & _ & Hb & _).
  exists main. split; [assumption |].
  rewrite Hid. unfold candidate. rewrite Hc. reflexivity.
Qed.

Lemma retry_loop_exhausted (attempts : nat) (w : World) (L M : Z) :
  number_config (settings w) = (L, M) ->
  M <> 0 ->
  1 <= L - len (str M) ->
  (forall main,
     10 ^ (L - len (str M) - 1) <= main < 10 ^ (L - len (str M)) ->
     In (candidate (settings w) main) (used_numbers w)) ->
  retry_loop attempts None w
  = (Raise (Exception_ exhausted_message), set_draws (draws w + attempts) w).
Proof.
  intros Hc HM HL Hall. revert w Hc Hall.
  induction attempts as [|n IH]; intros w Hc Hall; cbn [retry_loop].
  - unfold raise. rewrite Nat.add_0_r. destruct w; reflexivity.
  - destruct (generate_insuree_number_candidate w L M Hc HM HL) as (main & Hb & Hg).
    unfold bind at 1. rewrite Hg.
    unfold bind, number_taken, gets.
    cbn [tblInsuree batch_numbers set_draws].
    rewrite (number_taken_true _ w (Hall main Hb)).
    rewrite (IH (set_draws (S (draws w)) w)); [| exact Hc | exact Hall].
    cbn [draws set_draws]. f_equal. unfold set_draws. cbn. f_equal. lia.
Qed.

(** X7.  Without a location, when every identifier the settings allow is
    in use, a call for at least one number makes 9999 attempts, one draw
    each, and raises the exception of line 39; the batch row is there and
    no number row was added. *)
Theorem generate_insuree_numbers_exhausted (amount audit_user : Z) (c : option string)
    (w : World) (L M : Z) :
  number_config (settings w) = (L, M) ->
  M <> 0 ->
  1 <= L - len (str M) ->
  (forall main,
     10 ^ (L - len (str M) - 1) <= main < 10 ^ (L - len (str M)) ->
     In (candidate (settings w) main) (used_numbers w)) ->
  1 <= amount ->
  generate_insuree_numbers amount audit_user None c w
  = (Raise (Exception_ "Could not generate an insuree id after 10000 attempts."),
     set_draws (draws w + range_len 1 10000) (snd (create_batch None audit_user c w))).
Proof.
  intros Hc HM HL Hall Ha.
  unfold generate_insuree_numbers, bind at 1, create_batch. cbn [snd].
  rewrite range_len_amount.
  destruct (Z.to_nat amount) as [|n] eqn:En; [lia |].
  unfold bind at 1. cbn [populate]. unfold bind at 1.
  rewrite (retry_loop_exhausted _ _ L M); try assumption. reflexivity.
Qed.

Lemma world_full_is_full (main : Z) :
  10 ^ (2 - len (str 7) - 1) <= main < 10 ^ (2 - len (str 7)) ->
  In (candidate (settings world_full) main) (used_numbers world_full).
Proof.
  change (10 ^ (2 - len (str 7) - 1)) with 1. change (10 ^ (2 - len (str 7))) with 10.
  intros H.
  assert (E : main = 1 \/ main = 2 \/ main = 3 \/ main = 4 \/ main = 5 \/ main = 6
              \/ main = 7 \/ main = 8 \/ main = 9) by lia.
  repeat (destruct E as [E | E]; [subst main; vm_compute; tauto |]).
  subst main; vm_compute; tauto.
Qed.

Lemma generate_insuree_numbers_exhausted_witness :
  generate_insuree_numbers 3 1 None None world_full
  = (Raise (Exception_ "Could not generate an insuree id after 10000 attempts."),
     set_draws (draws world_full + range_len 1 10000)
       (snd (create_batch None 1 None world_full))).
Proof.
  apply (generate_insuree_numbers_exhausted 3 1 None world_full 2 7).
  - reflexivity.
  - lia.
  - vm_compute. discriminate.
  - exact world_full_is_full.
  - lia.
Defined.

Lemma NoDup_app_intro {A : Type} (l1 l2 : list A) :
  NoDup l1 -> NoDup l2 -> (forall a, In a l2 -> ~ In a l1) -> NoDup (l1 ++ l2).
Proof.
  intros H1 H2 Hd. induction l1 as [|x l1 IH]; [assumption |].
  inversion H1 as [| ? ? Hx H1']; subst. cbn. constructor.
  - rewrite in_app_iff. intros [? | Hin]; [contradiction |].
    apply (Hd x Hin). now left.
  - apply IH; [assumption |]. intros a Ha Hin. apply (Hd a Ha). now right.
Qed.

(** X8.  [generate_insuree_numbers] keeps the numbers of the number table
    pairwise distinct: when they are before a call, they are after it,
    whether the call returned or raised part of the way. *)
Theorem generate_insuree_numbers_keeps_unique (amount audit_user : Z)
    (location : option Location) (c : option string) (w : World) :
  NoDup (map insuree_number (batch_numbers w)) ->
  NoDup (map insuree_number
           (batch_numbers (snd (generate_insuree_numbers amount audit_user location c w)))).
Proof.
  intros Hnd.
  destruct (generate_insuree_numbers amount audit_user location c w) as [r w'] eqn:E.
  cbn [snd].
  unfold generate_insuree_numbers, bind at 1, create_batch in E. unfold bind in E.
  destruct (populate _ _ _ _) as [r1 w1] eqn:E1.
  destruct (populate_any _ _ _ _ _ _ E1) as (numbers & Hbn & _ & _ & Hnd' & Hfresh & _).
  cbn [batch_numbers set_batches] in Hbn.
  assert (Hw : w1 = w') by (destruct r1; now injection E as _ <-).
  subst w1. rewrite Hbn, map_app.
  unfold rows_of. rewrite map_map. cbn [insuree_number]. rewrite map_id.
  apply NoDup_app_intro; try assumption.
  intros n Hn Hin. apply (Hfresh n Hn).
  unfold used_numbers. cbn [batch_numbers set_batches]. apply in_app_iff. now right.
Qed.

Lemma generate_insuree_numbers_keeps_unique_witness :
  NoDup (map insuree_number
           (batch_numbers (snd (generate_insuree_numbers 2 1 None None world_export)))).
Proof.
  apply (generate_insuree_numbers_keeps_unique 2 1 None None world_export).
  simpl. repeat constructor; simpl; intuition discriminate.
Defined.

End PartialBatches.

(** ** The code length of a location type *)

Section CodeLength.

(** X9.  [get_location_id_len] answers a type once and for all: after a
    first call, a call for the same type gives the same answer and changes
    nothing, whatever the location table has become in between. *)
Theorem get_location_id_len_sticks (ty : string) (locations : list Location) (w : World) :
  get_location_id_len ty (set_tblLocation locations (snd (get_location_id_len ty w)))
  = (fst (get_location_id_len ty w),
     set_tblLocation locations (snd (get_location_id_len ty w))).
Proof.
  unfold get_location_id_len at 2 3 4.
  destruct (cache_lookup ty (id_len_cache w)) as [v |] eqn:E; cbn [fst snd].
  - unfold get_location_id_len. cbn [id_len_cache set_tblLocation]. now rewrite E.
  - unfold get_location_id_len.
    cbn [id_len_cache set_tblLocation set_id_len_cache].
    now rewrite cache_lookup_head.
Qed.

Lemma max_of_spec (l : list Z) (m : Z) :
  max_of l = Some m <-> In m l /\ forall x, In x l -> x <= m.
Proof.
  revert m; induction l as [|a l IH]; intros m; cbn [max_of].
  - split; [discriminate | intros [[] _]].
  - destruct (max_of l) as [m' |] eqn:E.
    + destruct (proj1 (IH m') eq_refl) as (Hin & Hmax). split.
      * intros H. injection H as <-. split.
        -- destruct (Z.max_spec a m') as [[_ ->] | [_ ->]]; [now right | now left].
        -- intros x [<- | Hx]; [lia | specialize (Hmax x Hx); lia].
      * intros (Hm & Hle). f_equal.
        assert (a <= m) by (apply Hle; now left).
        assert (m' <= m) by (apply Hle; now right).
        destruct Hm as [<- | Hm]; [lia | specialize (Hmax m Hm); lia].
    + apply max_of_nil in E. subst l. split.
      * intros H. injection H as <-. split; [now left | intros x [<- | []]; lia].
      * intros ([<- | []] & _). reflexivity.
Qed.

Lemma get_location_id_len_fresh (ty : string) (w : World) :
  cache_fresh ty w ->
  fst (get_location_id_len ty w) = Ok (location_id_len_query ty w).
Proof.
  intros Hf. unfold get_location_id_len.
  destruct (cache_lookup ty (id_len_cache w)) as [v |] eqn:E; [| reflexivity].
  cbn [fst]. now rewrite (Hf v E).
Qed.

Lemma in_query (ty : string) (w : World) (n : Z) :
  In n (map (fun l => len (loc_code l))
          (filter (fun l => String.eqb (loc_type l) ty && is_none (loc_validity_to l))
             (tblLocation w)))
  <-> exists l, in_force l w /\ loc_type l = ty /\ len (loc_code l) = n.
Proof.
  rewrite in_map_iff. split.
  - intros (l & E & Hl). apply filter_In in Hl. destruct Hl as (Hl & Hb).
    apply andb_true_iff in Hb. destruct Hb as (Hty & Hv).
    apply String.eqb_eq in Hty. exists l. unfold in_force.
    repeat split; try assumption. now destruct (loc_validity_to l).
  - intros (l & (Hl & Hv) & Hty & E). exists l. split; [assumption |].
    apply filter_In. split; [assumption |].
    rewrite Hv. cbn. rewrite andb_true_r. now apply String.eqb_eq.
Qed.

(** X10.  When the memoisation table is not stale for a type,
    [get_location_id_len] answers the length of the longest code among the
    stored locations of that type that are in force: the integer it
    answers is the code length of one of them and bounds the code length
    of each, and it answers [None] exactly when there is none. *)
Theorem get_location_id_len_longest (ty : string) (w : World) :
  cache_fresh ty w ->
  (forall n,
     fst (get_location_id_len ty w) = Ok (Some n) <->
     (exists l, in_force l w /\ loc_type l = ty /\ len (loc_code l) = n)
     /\ (forall l, in_force l w -> loc_type l = ty -> len (loc_code l) <= n))
  /\ (fst (get_location_id_len ty w) = Ok None <->
      forall l, in_force l w -> loc_type l <> ty).
Proof.
  intros Hf. rewrite (get_location_id_len_fresh ty w Hf).
  unfold location_id_len_query. split.
  - intros n. split.
    + intros H. injection H as H. apply max_of_spec in H. destruct H as (Hin & Hmax).
      split; [now apply in_query |].
      intros l Hl Hty. apply Hmax. apply in_query. now exists l.
    + intros (Hex & Hmax). f_equal. apply max_of_spec. split; [now apply in_query |].
      intros x Hx. apply in_query in Hx. destruct Hx as (l & Hl & Hty & <-).
      now apply Hmax.
  - split.
    + intros H. injection H as H. apply max_of_nil in H.
      intros l Hl Hty.
      assert (Hin : In (len (loc_code l))
                      (map (fun l => len (loc_code l))
                         (filter (fun l => String.eqb (loc_type l) ty
                                           && is_none (loc_validity_to l))
                            (tblLocation w)))) by (apply in_query; now exists l).
      rewrite H in Hin. destruct Hin.
    + intros Hnone. f_equal.
      destruct (max_of _) as [m |] eqn:E; [| reflexivity].
      apply max_of_spec in E. destruct E as (Hin & _).
      apply in_query in Hin. destruct Hin as (l & Hl & Hty & _).
      now destruct (Hnone l Hl).
Qed.

Lemma get_location_id_len_longest_witness :
  (forall n,
     fst (get_location_id_len "D" world0) = Ok (Some n) <->
     (exists l, in_force l world0 /\ loc_type l = "D" /\ len (loc_code l) = n)
     /\ (forall l, in_force l world0 -> loc_type l = "D" -> len (loc_code l) <= n))
  /\ (fst (get_location_id_len "D" world0) = Ok None <->
      forall l, in_force l world0 -> loc_type l <> "D").
Proof.
  apply (get_location_id_len_longest "D" world0).
  intros v H. discriminate H.
Defined.

End CodeLength.

(** ** Reading a number back *)

Section ReadingBack.

Lemma is_digit_range (c : ascii) :
  is_digit c = true -> 0 <= digit_val c <= 9.
Proof.
  unfold is_digit, digit_val. intros H. apply andb_true_iff in H.
  destruct H as (H1 & H2). apply N.leb_le in H1, H2. lia.
Qed.

Lemma is_digit_not_space (c : ascii) : is_digit c = true -> is_space c = false.
Proof.
  unfold is_digit, is_space. intros H. apply andb_true_iff in H.
  destruct H as (H1 & H2). apply N.leb_le in H1, H2.
  apply orb_false_iff. split; apply andb_false_iff.
  - right. apply N.leb_gt. lia.
  - right. apply N.leb_gt. lia.
Qed.

Lemma digit_val_digit_char (d : Z) : 0 <= d < 10 -> digit_val (digit_char d) = d.
Proof.
  intros H.
  assert (E : d = 0 \/ d = 1 \/ d = 2 \/ d = 3 \/ d = 4 \/ d = 5 \/ d = 6
              \/ d = 7 \/ d = 8 \/ d = 9) by lia.
  repeat (destruct E as [E | E]; [subst d; reflexivity |]).
  subst d; reflexivity.
Qed.

(** [int], by the first character of the stripped text. *)
Lemma int_cases (s : string) :
  int s =
  match rstrip (lstrip s) with
  | EmptyString => None
  | String c r =>
      if Ascii.eqb c "-" then option_map Z.opp (parse_digits r 0 false)
      else if Ascii.eqb c "+" then parse_digits r 0 false
      else parse_digits (String c r) 0 false
  end.
Proof.
  unfold int. destruct (rstrip (lstrip s)) as [|c r]; [reflexivity |].
  destruct c as [[] [] [] [] [] [] [] []]; reflexivity.
Qed.

Lemma length_lstrip (s : string) : (String.length (lstrip s) <= String.length s)%nat.
Proof.
  induction s as [|c r IH]; cbn [lstrip]; [lia |].
  destruct (is_space c); cbn [String.length]; lia.
Qed.

Lemma length_rstrip (s : string) : (String.length (rstrip s) <= String.length s)%nat.
Proof.
  induction s as [|c r IH]; cbn [rstrip]; [lia |].
  destruct (rstrip r) as [|c' r'].
  - destruct (is_space c); cbn [String.length]; lia.
  - cbn [String.length] in *. lia.
Qed.

Lemma parse_digits_bound (s : string) (acc : Z) (p : bool) (v : Z) :
  0 <= acc ->
  parse_digits s acc p = Some v ->
  0 <= v < (acc + 1) * 10 ^ Z.of_nat (String.length s)
  /\ (p = false -> (1 <= String.length s)%nat).
Proof.
  revert acc p; induction s as [|c r IH]; intros acc p Hacc; cbn [parse_digits].
  - destruct p; [| discriminate]. intros H. injection H as <-.
    change (10 ^ Z.of_nat (String.length "")) with 1. split; [lia | discriminate].
  - cbn [String.length]. rewrite Nat2Z.inj_succ, Z.pow_succ_r by lia.
    assert (0 < 10 ^ Z.of_nat (String.length r)) by (apply Z.pow_pos_nonneg; lia).
    destruct (is_digit c) eqn:Ed.
    + pose proof (is_digit_range c Ed) as Hd. intros Hp.
      destruct (IH (10 * acc + digit_val c) true ltac:(lia) Hp) as (Hb & _).
      assert ((10 * acc + digit_val c + 1) * 10 ^ Z.of_nat (String.length r)
              <= (10 * (acc + 1)) * 10 ^ Z.of_nat (String.length r))
        by (apply Z.mul_le_mono_nonneg_r; lia).
      split; [lia | lia].
    + destruct (Ascii.eqb c "_" && p)%bool; [| discriminate]. intros Hp.
      destruct (IH _ _ Hacc Hp) as (Hb & _).
      assert ((acc + 1) * 10 ^ Z.of_nat (String.length r)
              <= (acc + 1) * (10 * 10 ^ Z.of_nat (String.length r)))
        by (apply Z.mul_le_mono_nonneg_l; lia).
      split; [lia | lia].
Qed.

(** The integer [int] reads from a text prints in no more characters than
    the text has. *)
Lemma int_not_longer (s : string) (v : Z) : int s = Some v -> len (str v) <= len s.
Proof.
  rewrite int_cases.
  pose proof (length_lstrip s) as H1. pose proof (length_rstrip (lstrip s)) as H2.
  destruct (rstrip (lstrip s)) as [|c r]; [discriminate |].
  cbn [String.length] in H2.
  assert (Hnn : forall t x, parse_digits t 0 false = Some x ->
                            0 <= x /\ len (str x) <= len t).
  { intros t x Hp. destruct (parse_digits_bound t 0 false x ltac:(lia) Hp) as (Hb & Hl).
    specialize (Hl eq_refl). split; [lia |].
    unfold str, len. destruct (Z.ltb_spec x 0) as [? | _]; [lia |].
    rewrite length_digits.
    assert (ndigits x <= String.length t)%nat; [| lia].
    apply ndigits_le; [assumption | lia]. }
  unfold len in *.
  destruct (Ascii.eqb c "-").
  - destruct (parse_digits r 0 false) as [x |] eqn:Ep; [| discriminate].
    intros H. injection H as <-. destruct (Hnn _ _ Ep) as (Hx & Hlen).
    unfold str in *. destruct (Z.ltb_spec (- x) 0) as [Hneg | Hz].
    + destruct (Z.ltb_spec x 0) as [? | _]; [lia |].
      cbn [String.length]. rewrite Z.opp_involutive. lia.
    + assert (x = 0) by lia. subst x. cbn in *. lia.
  - destruct (Ascii.eqb c "+").
    + intros Hp. destruct (Hnn _ _ Hp). lia.
    + intros Hp. destruct (Hnn _ _ Hp) as (_ & Hlen). cbn [String.length] in Hlen. lia.
Qed.

Lemma parse_digits_digits (n : nat) (x acc : Z) (p : bool) (t : string) :
  0 <= x < 10 ^ Z.of_nat n ->
  parse_digits (digits n x ++ t) acc p
  = parse_digits t (acc * 10 ^ Z.of_nat n + x) (match n with O => p | S _ => true end).
Proof.
  revert x t; induction n as [|n IH]; intros x t Hx.
  - assert (x = 0) by (change (10 ^ Z.of_nat 0) with 1 in Hx; lia). subst x.
    cbn [digits]. change ("" ++ t) with t. f_equal.
    change (10 ^ Z.of_nat 0) with 1. lia.
  - cbn [digits]. rewrite app_assoc_s. cbn [append].
    rewrite Nat2Z.inj_succ, Z.pow_succ_r in * by lia.
    pose proof (Z.mod_pos_bound x 10 ltac:(lia)) as Hm.
    rewrite IH by (split; [apply Z.div_pos; lia | apply Z.div_lt_upper_bound; lia]).
    cbn [parse_digits]. rewrite is_digit_digit_char by assumption.
    rewrite digit_val_digit_char by assumption.
    pose proof (Z.div_mod x 10 ltac:(lia)) as Hdm.
    f_equal. lia.
Qed.

Lemma lstrip_digits (s : string) : all_digits s = true -> lstrip s = s.
Proof.
  destruct s as [|c r]; [reflexivity |]. cbn [all_digits lstrip].
  intros H. apply andb_true_iff in H. destruct H as (Hc & _).
  now rewrite (is_digit_not_space c Hc).
Qed.

Lemma rstrip_digits (s : string) : all_digits s = true -> rstrip s = s.
Proof.
  induction s as [|c r IH]; [reflexivity |]. cbn [all_digits rstrip].
  intros H. apply andb_true_iff in H. destruct H as (Hc & Hr).
  rewrite (IH Hr). destruct r; [| reflexivity].
  now rewrite (is_digit_not_space c Hc).
Qed.

(** [int] reads a number back from its digits. *)
Lemma int_digits (n : nat) (x : Z) :
  (1 <= n)%nat -> 0 <= x < 10 ^ Z.of_nat n -> int (digits n x) = Some x.
Proof.
  intros Hn Hx. rewrite int_cases.
  pose proof (all_digits_digits n x) as Hd.
  rewrite (lstrip_digits _ Hd), (rstrip_digits _ Hd).
  pose proof (parse_digits_digits n x 0 false "" Hx) as Hp.
  rewrite app_empty_r in Hp.
  destruct n as [|n]; [lia |].
  destruct (digits (S n) x) as [|c r] eqn:E.
  - pose proof (length_digits (S n) x) as Hl. rewrite E in Hl. discriminate.
  - cbn [all_digits] in Hd. apply andb_true_iff in Hd. destruct Hd as (Hc & _).
    destruct (Ascii.eqb_spec c "-") as [-> | _]; [discriminate |].
    destruct (Ascii.eqb_spec c "+") as [-> | _]; [discriminate |].
    rewrite Hp. cbn [parse_digits]. f_equal; lia.
Qed.

Lemma substring_prefix (a b : string) : substring 0 (String.length a) (a ++ b) = a.
Proof.
  induction a as [|c a IH]; cbn.
  - destruct b; reflexivity.
  - now rewrite IH.
Qed.

Lemma substring_all (b : string) : substring 0 (String.length b) b = b.
Proof. induction b as [|c b IH]; cbn; [reflexivity | now rewrite IH]. Qed.

Lemma substring_suffix (a b : string) :
  substring (String.length a) (String.length b) (a ++ b) = b.
Proof.
  induction a as [|c a IH]; cbn; [apply substring_all | assumption].
Qed.

(** X11.  Reading a generated identifier back.  With [L] and [M] the
    length and positive modulo in effect and [W] the number of characters
    of [M], let [generate_insuree_number] return an identifier without a
    location, or with a location whose code is a non-negative integer that
    fits the code length of its type.  Then [int] of the first [L - W]
    characters is the main number, [int] of the last [W] characters is the
    checksum, and the checksum is the main number modulo [M]: a reader
    that splits the identifier and recomputes the checksum accepts it. *)
Theorem generated_number_reads_back (location : option Location) (w w' : World)
    (id : string) (L M : Z) :
  number_config (settings w) = (L, M) ->
  0 < M ->
  code_fits location w = true ->
  code_nonneg location = true ->
  generate_insuree_number location w = (Ok id, w') ->
  exists main checksum,
    main_number L (len (str M)) location w = (Ok main, w')
    /\ int (substring 0 (Z.to_nat (L - len (str M))) id) = Some main
    /\ int (substring (Z.to_nat (L - len (str M))) (Z.to_nat (len (str M))) id)
       = Some checksum
    /\ checksum = main mod M.
Proof.
  intros Hc HM Hfit Hnn Hgen.
  destruct (generated_number_digits _ _ _ _ _ _ Hc HM Hfit Hnn Hgen)
    as (main & Hmain & HLW & Hb & ->).
  pose proof (len_str_pos M) as HW.
  exists main, (main mod M). split; [assumption |].
  set (a := Z.to_nat (L - len (str M))). set (b := Z.to_nat (len (str M))).
  pose proof (substring_prefix (digits a main) (digits b (main mod M))) as Hp.
  pose proof (substring_suffix (digits a main) (digits b (main mod M))) as Hs.
  rewrite length_digits in Hp. rewrite !length_digits in Hs. rewrite Hp, Hs.
  repeat split.
  - apply int_digits; [lia |]. unfold a. rewrite Z2Nat.id by lia. assumption.
  - apply int_digits; [lia |]. unfold b. rewrite Z2Nat.id by lia.
    destruct (checksum_fits main M ltac:(lia)) as [? | [Hneg _]]; [assumption |].
    pose proof (Z.mod_pos_bound main M HM). lia.
Qed.

Lemma generated_number_reads_back_witness :
  exists main checksum,
    main_number 9 (len (str 7)) (Some district_12) world0
    = (Ok main, set_draws 1 (set_id_len_cache [("D", Some 2)] world0))
    /\ int (substring 0 (Z.to_nat (9 - len (str 7))) "121123450") = Some main
    /\ int (substring (Z.to_nat (9 - len (str 7))) (Z.to_nat (len (str 7))) "121123450")
       = Some checksum
    /\ checksum = main mod 7.
Proof.
  apply (generated_number_reads_back (Some district_12) world0
           (set_draws 1 (set_id_len_cache [("D", Some 2)] world0)) "121123450" 9 7);
    reflexivity.
Defined.

Lemma location_in_force_fits (loc : Location) (w : World) (code : Z) :
  in_force loc w ->
  cache_fresh (loc_type loc) w ->
  int (loc_code loc) = Some code ->
  location_fits loc w = true.
Proof.
  intros Hin Hf Hint. unfold location_fits.
  rewrite Hint, (get_location_id_len_fresh _ _ Hf).
  unfold location_id_len_query.
  destruct (max_of _) as [m |] eqn:E.
  - apply max_of_spec in E. destruct E as (_ & Hmax).
    apply Z.leb_le. pose proof (int_not_longer _ _ Hint) as Hl.
    assert (len (loc_code loc) <= m); [| lia].
    apply Hmax. apply in_query. now exists loc.
  - exfalso. apply max_of_nil in E.
    assert (Hq : In (len (loc_code loc))
                   (map (fun l => len (loc_code l))
                      (filter (fun l => String.eqb (loc_type l) (loc_type loc)
                                        && is_none (loc_validity_to l))
                         (tblLocation w)))) by (apply in_query; now exists loc).
    rewrite E in Hq. destruct Hq.
Qed.

(** X12.  For a location that is stored and in force, with a code [int]
    reads as a non-negative integer and a memoisation table that is not
    stale for its type, an identifier [generate_insuree_number] returns
    has exactly [L] characters, all digits, for the length [L] and
    positive modulo in effect; and [int] of its first characters, as many
    as the code length of the type, is the location's code. *)
Theorem generated_number_for_location_in_force (loc : Location) (w w' : World)
    (id : string) (L M code : Z) :
  number_config (settings w) = (L, M) ->
  0 < M ->
  in_force loc w ->
  cache_fresh (loc_type loc) w ->
  int (loc_code loc) = Some code ->
  0 <= code ->
  generate_insuree_number (Some loc) w = (Ok id, w') ->
  len id = L
  /\ all_digits id = true
  /\ exists id_len,
       fst (get_location_id_len (loc_type loc) w) = Ok (Some id_len)
       /\ int (substring 0 (Z.to_nat id_len) id) = Some code.
Proof.
  intros Hc HM Hin Hf Hint Hcode Hgen.
  pose proof (location_in_force_fits loc w code Hin Hf Hint) as Hfit.
  assert (Hnn : code_nonneg (Some loc) = true).
  { cbn [code_nonneg]. rewrite Hint. now apply Z.leb_le. }
  destruct (generated_number_digits (Some loc) _ _ _ _ _ Hc HM Hfit Hnn Hgen)
    as (main & Hmain & HLW & Hb & ->).
  pose proof (len_str_pos M) as HW.
  split; [| split].
  - unfold len at 1. rewrite length_app, !length_digits. lia.
  - now rewrite all_digits_app, !all_digits_digits.
  - apply main_number_location_inv in Hmain.
    destruct Hmain as (code' & id_len & w1 & rnd & Hint' & Hlen & Hrnd & ->).
    rewrite Hint in Hint'. injection Hint' as <-.
    exists id_len. rewrite Hlen. split; [reflexivity |].
    apply get_random_inv in Hrnd. destruct Hrnd as (Hk & _ & Hr & _).
    unfold location_fits in Hfit. rewrite Hint, Hlen in Hfit. cbn [fst] in Hfit.
    apply Z.leb_le in Hfit.
    pose proof (len_str_pos code) as Hs.
    destruct (str_fits id_len code Hfit) as [Hcf | [? _]]; [| lia].
    set (k := L - len (str M) - id_len) in *.
    assert (0 < 10 ^ (k - 1)) by (apply Z.pow_pos_nonneg; lia).
    pose proof (digits_split (Z.to_nat id_len) (Z.to_nat k) code rnd) as Hsp.
    rewrite Z2Nat.id in Hsp by lia. specialize (Hsp ltac:(lia)).
    replace (Z.to_nat (L - len (str M))) with (Z.to_nat id_len + Z.to_nat k)%nat by lia.
    rewrite Hsp, app_assoc_s.
    pose proof (substring_prefix (digits (Z.to_nat id_len) code)
                  (digits (Z.to_nat k) rnd
                   ++ digits (Z.to_nat (len (str M)))
                        ((code * 10 ^ k + rnd) mod M))) as Hp.
    rewrite length_digits in Hp. rewrite Hp.
    apply int_digits; [lia |]. rewrite Z2Nat.id by lia. assumption.
Qed.

Lemma generated_number_for_location_in_force_witness :
  len "121123450" = 9
  /\ all_digits "121123450" = true
  /\ exists id_len,
       fst (get_location_id_len (loc_type district_12) world0) = Ok (Some id_len)
       /\ int (substring 0 (Z.to_nat id_len) "121123450") = Some 12.
Proof.
  apply (generated_number_for_location_in_force district_12 world0
           (set_draws 1 (set_id_len_cache [("D", Some 2)] world0)) "121123450" 9 7 12).
  - reflexivity.
  - lia.
  - split; [now left | reflexivity].
  - intros v H. discriminate H.
  - reflexivity.
  - lia.
  - reflexivity.
Defined.

End ReadingBack.

(** ** What the export selects, writes and leaves *)

Section Exports.

Lemma selection_uncapped (batch : option InsureeBatch) (amount : option Z) (w : World) :
  truthy amount = false ->
  exists q,
    sql_batch q = option_map batch_id batch
    /\ selection batch amount w = Ok (joined q w).
Proof.
  intros Ht. unfold selection, get_insurees_to_export, bind, gets, ret. cbn [fst].
  rewrite Ht. cbn [andb].
  exists {| sql_top := None; sql_batch := option_map batch_id batch; sql_limit := None |}.
  split; reflexivity.
Qed.

Lemma joined_complete (q : RawQuerySet) (w : World) (i : Insuree) (r : BatchInsureeNumber) :
  In i (tblInsuree w) -> In r (batch_numbers w) ->
  chf_id i = insuree_number r -> print_date r = None ->
  batch_matches q r = true ->
  In (i, r) (joined q w).
Proof.
  intros Hi Hr Hid Hpd Hb. unfold joined. apply in_flat_map. exists i.
  split; [assumption |]. apply in_map. apply filter_In. split; [assumption |].
  unfold joins. rewrite Hid, String.eqb_refl, Hpd, Hb. reflexivity.
Qed.

(** X13.  Without an amount (or with amount zero) the export selects
    every pair of a stored insuree and a stored number row that carries
    the insuree's identifier, has no print date and, when a batch is
    given, belongs to it; and it selects nothing else. *)
Theorem selection_without_amount (batch : option InsureeBatch) (amount : option Z)
    (w : World) :
  truthy amount = false ->
  exists sel,
    selection batch amount w = Ok sel
    /\ forall i r, In (i, r) sel <-> exportable batch w i r.
Proof.
  intros Ht. destruct (selection_uncapped batch amount w Ht) as (q & Hq & Hsel).
  exists (joined q w). split; [assumption |].
  intros i r. split.
  - intros Hin. exact (selection_sound _ _ _ _ _ _ Hsel Hin).
  - intros (Hi & Hr & Hid & Hpd & Hb).
    apply joined_complete; try assumption.
    unfold batch_matches. rewrite Hq.
    destruct batch as [b |]; [| reflexivity]. cbn. apply Nat.eqb_eq. now apply Hb.
Qed.

Lemma selection_without_amount_witness :
  exists sel,
    selection None None world_export = Ok sel
    /\ forall i r, In (i, r) sel <-> exportable None world_export i r.
Proof.
  apply (selection_without_amount None None world_export). reflexivity.
Defined.


Lemma in_marked (sel : list (Insuree * BatchInsureeNumber)) (w : World)
    (r : BatchInsureeNumber) :
  In r (batch_numbers (marked sel w)) ->
  print_date r = None ->
  In r (batch_numbers w) /\ ~ In (insuree_number r) (map chf_id (map fst sel)).
Proof.
  unfold marked. cbn [batch_numbers set_batch_numbers]. intros Hin Hpd.
  apply in_map_iff in Hin. destruct Hin as (r0 & E & Hr0).
  unfold mark_printed in E. destruct (in_ids _ r0) eqn:Ei.
  - subst r. discriminate.
  - subst r0. split; [assumption |]. intros Hin.
    apply in_ids_iff in Hin. congruence.
Qed.

(** X15.  No number is exported twice.  Once a call with [dry_run] false
    has got past the bundling, no later selection, for any batch and
    amount, holds a row with a number of that call's selection; and when
    the call had no amount, the same selection is empty afterwards. *)
Theorem exported_numbers_are_not_selected_again (batch batch' : option InsureeBatch)
    (amount amount' : option Z) (w : World)
    (sel sel' : list (Insuree * BatchInsureeNumber))
    (b : list (list string) * list string * list (string * FileContent)) :
  selection batch amount w = Ok sel ->
  bundle (map fst sel) [] ["index.csv"] [] = Ok b ->
  selection batch' amount' (snd (export_insurees batch amount false w)) = Ok sel' ->
  (forall i r, In (i, r) sel' -> ~ In (insuree_number r) (map insuree_number (map snd sel)))
  /\ (truthy amount = false -> batch' = batch -> sel' = []).
Proof.
  intros Hsel Hb Hsel'.
  rewrite export_insurees_run, Hsel, Hb in Hsel'. cbn [snd] in Hsel'.
  assert (Hids : map chf_id (map fst sel) = map insuree_number (map snd sel)).
  { rewrite !map_map. apply map_ext_in. intros [i r] Hin. cbn.
    now destruct (selection_sound _ _ _ _ _ _ Hsel Hin) as (_ & _ & Hid & _). }
  assert (Hnot : forall i r, In (i, r) sel' ->
                   exportable batch' w i r
                   /\ ~ In (insuree_number r) (map chf_id (map fst sel))).
  { intros i r Hin.
    destruct (selection_sound _ _ _ _ _ _ Hsel' Hin) as (Hi & Hr & Hid & Hpd & Hbt).
    destruct (in_marked _ _ _ Hr Hpd) as (Hr0 & Hn).
    split; [| assumption]. unfold exportable. repeat split; assumption. }
  split.
  - intros i r Hin. rewrite <- Hids. exact (proj2 (Hnot i r Hin)).
  - intros Ht ->.
    destruct sel' as [|[i r] rest]; [reflexivity |]. exfalso.
    destruct (Hnot i r (or_introl eq_refl)) as (Hex & Hn). apply Hn.
    destruct (selection_uncapped batch amount w Ht) as (q & Hq & Hsel0).
    rewrite Hsel in Hsel0. injection Hsel0 as ->.
    destruct Hex as (Hi & Hr & Hid & Hpd & Hbt).
    assert (Hin : In (i, r) (joined q w)).
    { apply joined_complete; try assumption.
      unfold batch_matches. rewrite Hq.
      destruct batch as [b0 |]; [| reflexivity]. cbn. apply Nat.eqb_eq. now apply Hbt. }
    rewrite <- Hid.
    apply in_map. apply in_map_iff. exists (i, r). split; [reflexivity | assumption].
Qed.

Lemma exported_numbers_are_not_selected_again_witness :
  (forall i r,
     In (i, r) (skipn 1 selection_export) ->
     ~ In (insuree_number r) (map insuree_number (map snd (firstn 1 selection_export))))
  /\ (truthy (Some 1) = false -> @None InsureeBatch = None ->
      skipn 1 selection_export = []).
Proof.
  eapply (exported_numbers_are_not_selected_again None None (Some 1) None world_export
            (firstn 1 selection_export) (skipn 1 selection_export));
    reflexivity.
Defined.

End Exports.

(** ** The archive and the rows after an export *)

Section Archives.

(** X16.  [export_insurees] adds no row, removes none and touches no
    table but the number table: whatever its arguments and however it
    ends, every number row keeps its batch and its number, and its print
    date is either what it was or the current time, so a print date that
    was set is never cleared. *)
Theorem export_insurees_keeps_rows (batch : option InsureeBatch) (amount : option Z)
    (dry_run : bool) (w : World) :
  tblInsuree (snd (export_insurees batch amount dry_run w)) = tblInsuree w
  /\ tblLocation (snd (export_insurees batch amount dry_run w)) = tblLocation w
  /\ batches (snd (export_insurees batch amount dry_run w)) = batches w
  /\ exists f,
       batch_numbers (snd (export_insurees batch amount dry_run w))
       = map f (batch_numbers w)
       /\ forall r,
            bin_batch (f r) = bin_batch r
            /\ insuree_number (f r) = insuree_number r
            /\ (f r = r \/ print_date (f r) = Some (clock w)).
Proof.
  rewrite export_insurees_run.
  assert (Hid : exists f,
             batch_numbers w = map f (batch_numbers w)
             /\ forall r, bin_batch (f r) = bin_batch r
                          /\ insuree_number (f r) = insuree_number r
                          /\ (f r = r \/ print_date (f r) = Some (clock w))).
  { exists (fun r => r). split; [now rewrite map_id | intros r; repeat split; now left]. }
  destruct (selection batch amount w) as [sel | e]; [| repeat split; assumption].
  destruct (bundle _ _ _ _) as [b | e]; [| repeat split; assumption].
  cbn [snd]. destruct dry_run; [repeat split; assumption |].
  repeat split; try reflexivity.
  exists (mark_printed (map chf_id (map fst sel)) (clock w)). split; [reflexivity |].
  intros r. unfold mark_printed. destruct (in_ids _ r); cbn.
  - repeat split. now right.
  - repeat split. now left.
Qed.

(** X17.  A dry run is a faithful preview: with the same arguments on the
    same world, [export_insurees] returns the same archive, or raises the
    same exception, with [dry_run] true as with [dry_run] false. *)
Theorem dry_run_previews_export (batch : option InsureeBatch) (amount : option Z)
    (w : World) :
  fst (export_insurees batch amount true w) = fst (export_insurees batch amount false w).
Proof.
  rewrite !export_insurees_run.
  destruct (selection batch amount w) as [sel | e]; [| reflexivity].
  destruct (bundle _ _ _ _); reflexivity.
Qed.

Lemma jpg_not_index (s : string) : s ++ ".jpg" <> "index.csv".
Proof.
  intros H.
  assert (Hl : String.length (s ++ ".jpg") = 9%nat) by (now rewrite H).
  rewrite length_app in Hl. cbn in Hl.
  destruct s as [|c1 [|c2 [|c3 [|c4 [|c5 [|c6 s]]]]]]; cbn in Hl; try lia.
  cbn in H. inversion H.
Qed.

Lemma read_file_in (n : string) (files : list (string * FileContent)) :
  (exists c, In (n, c) files) -> In (n, read_file n files) files.
Proof.
  induction files as [|[n' c'] files IH]; intros (c & Hin); [destruct Hin |].
  cbn [read_file]. destruct (String.eqb_spec n' n) as [-> | Hne].
  - now left.
  - right. apply IH. destruct Hin as [E | Hin]; [congruence | now exists c].
Qed.

Lemma read_file_head (n : string) (c : FileContent) (files : list (string * FileContent)) :
  read_file n ((n, c) :: files) = c.
Proof. cbn [read_file]. now rewrite String.eqb_refl. Qed.

Lemma read_file_tail (n n' : string) (c : FileContent)
    (files : list (string * FileContent)) :
  n' <> n -> read_file n ((n', c) :: files) = read_file n files.
Proof.
  intros Hne. cbn [read_file]. destruct (String.eqb_spec n' n); [contradiction | reflexivity].
Qed.

Lemma has_photo_text (i : Insuree) :
  has_photo i = true <-> exists text, photo_text i = Some text.
Proof.
  unfold has_photo. destruct (photo_text i) as [t |]; cbn; split.
  - intros _. now exists t.
  - reflexivity.
  - discriminate.
  - intros (t & H). discriminate.
Qed.

(** What the loop of lines 102 to 120 leaves behind. *)
Lemma bundle_spec (l : list Insuree) (rows rows' : list (list string))
    (names names' : list string) (files files' : list (string * FileContent)) :
  bundle l rows names files = Ok (rows', names', files') ->
  rows' = (rows ++ map csv_row l)%list
  /\ names' = (names ++ map jpg_name (filter has_photo l))%list
  /\ (forall n c, In (n, c) files -> In (n, c) files')
  /\ (forall n, In n (map jpg_name (filter has_photo l)) -> exists c, In (n, c) files')
  /\ (forall n c, In (n, c) files' ->
        In (n, c) files
        \/ exists i text bytes,
             In i l /\ n = jpg_name i /\ photo_text i = Some text
             /\ decodebytes text = Some bytes /\ c = BinFile bytes).
Proof.
  revert rows names files; induction l as [|i l IH]; intros rows names files;
    cbn [bundle].
  - intros H. injection H as <- <- <-. cbn. rewrite !app_nil_r.
    repeat split; try tauto; try (now intros n []).
  - unfold has_photo at 1 2. cbn [filter].
    destruct (photo_text i) as [text |] eqn:Et; cbn [is_none negb].
    + destruct (decodebytes text) as [bytes |] eqn:Ed; [| discriminate].
      intros H. destruct (IH _ _ _ H) as (Hr & Hn & Hmono & Hex & Hform).
      subst rows' names'. rewrite <- !app_assoc. cbn [map app].
      repeat split; try reflexivity.
      * intros n c Hin. apply Hmono. now right.
      * intros n [<- | Hin]; [| now apply Hex].
        exists (BinFile bytes). apply Hmono. now left.
      * intros n c Hin. destruct (Hform n c Hin) as [[E | Hf] | (j & t & b & Hj & Hrest)].
        -- injection E as <- <-. right. exists i, text, bytes.
           repeat split; try assumption. now left.
        -- now left.
        -- right. exists j, t, b. split; [now right | assumption].
    + intros H. destruct (IH _ _ _ H) as (Hr & Hn & Hmono & Hex & Hform).
      subst rows' names'. rewrite <- !app_assoc. cbn [map app].
      repeat split; try reflexivity; try assumption.
      intros n c Hin. destruct (Hform n c Hin) as [Hf | (j & t & b & Hj & Hrest)].
      * now left.
      * right. exists j, t, b. split; [now right | assumption].
Qed.

(** X18.  The archive [export_insurees] returns starts with [index.csv],
    which holds one row per selected insuree, in the order of the
    selection and with no header: identifier, other names, last name, date
    of birth, gender.  After it comes one member per selected insuree that
    has a photo, in the same order, named by the identifier with [.jpg],
    and its content is the base64 decoding of the photo text of a selected
    insuree with that identifier. *)
Theorem export_insurees_archive (batch : option InsureeBatch) (amount : option Z)
    (dry_run : bool) (w : World) (sel : list (Insuree * BatchInsureeNumber))
    (zf : Archive) :
  selection batch amount w = Ok sel ->
  fst (export_insurees batch amount dry_run w) = Ok (Some zf) ->
  exists photos,
    zf = ("index.csv", CsvFile (map csv_row (map fst sel))) :: photos
    /\ map fst photos = map jpg_name (filter has_photo (map fst sel))
    /\ forall n c,
         In (n, c) photos ->
         exists i text bytes,
           In i (map fst sel) /\ n = jpg_name i /\ photo_text i = Some text
           /\ decodebytes text = Some bytes /\ c = BinFile bytes.
Proof.
  intros Hsel. rewrite export_insurees_run, Hsel.
  destruct (bundle (map fst sel) [] ["index.csv"] []) as [b | e] eqn:Eb;
    [| discriminate].
  cbn [fst]. destruct (zip_write_ok w); [| discriminate].
  intros H. injection H as <-.
  destruct b as [[rows names] files].
  destruct (bundle_spec _ _ _ _ _ _ _ Eb) as (-> & -> & _ & Hex & Hform).
  unfold archive_of. change ([] ++ map csv_row (map fst sel))%list
    with (map csv_row (map fst sel)).
  change (["index.csv"] ++ map jpg_name (filter has_photo (map fst sel)))%list
    with ("index.csv" :: map jpg_name (filter has_photo (map fst sel))).
  rewrite map_cons. cbv beta. rewrite read_file_head.
  assert (Hne : forall n, In n (map jpg_name (filter has_photo (map fst sel))) ->
                          "index.csv" <> n).
  { intros n Hn. apply in_map_iff in Hn. destruct Hn as (i & <- & _).
    intros E. symmetry in E. revert E. apply jpg_not_index. }
  exists (map (fun n => (n, read_file n files))
            (map jpg_name (filter has_photo (map fst sel)))).
  split; [| split].
  - f_equal. apply map_ext_in. intros n Hn. f_equal.
    apply read_file_tail. now apply Hne.
  - rewrite map_map. cbn [fst]. apply map_id.
  - intros n c Hin. apply in_map_iff in Hin. destruct Hin as (n' & E & Hn').
    injection E as -> <-.
    pose proof (read_file_in n files (Hex n Hn')) as Hin.
    destruct (Hform _ _ Hin) as [[] | Hf]. exact Hf.
Qed.

Lemma export_insurees_archive_witness :
  exists photos,
    [("index.csv",
      CsvFile [["100123450"; "Ada"; "Lovelace"; "1815-12-10"; "F"];
               ["100202692"; "Ada"; "Lovelace"; "1815-12-10"; "F"]]);
     ("100123450.jpg", BinFile ["A"; "B"; "C"]%char)]
    = ("index.csv", CsvFile (map csv_row (map fst selection_export))) :: photos
    /\ map fst photos = map jpg_name (filter has_photo (map fst selection_export))
    /\ forall n c,
         In (n, c) photos ->
         exists i text bytes,
           In i (map fst selection_export) /\ n = jpg_name i /\ photo_text i = Some text
           /\ decodebytes text = Some bytes /\ c = BinFile bytes.
Proof.
  apply (export_insurees_archive None None false world_export selection_export);
    reflexivity.
Defined.

End Archives.

(** ** Whole batches, and batches before an export *)

Section WholeBatches.

Lemma get_location_id_len_keeps_fresh (ty : string) (w w' : World) (r : result (option Z)) :
  get_location_id_len ty w = (r, w') ->
  (forall t, cache_fresh t w) -> forall t, cache_fresh t w'.
Proof.
  unfold get_location_id_len.
  destruct (cache_lookup ty (id_len_cache w)) as [v0 |] eqn:E; intros H Hf;
    injection H as _ <-; [assumption |].
  intros t v. unfold cache_fresh, location_id_len_query.
  cbn [id_len_cache tblLocation set_id_len_cache cache_lookup].
  destruct (String.eqb_spec ty t) as [-> | _].
  - intros Hv. now injection Hv as <-.
  - apply Hf.
Qed.

Lemma encodable_tables (location : option Location) (w w' : World) :
  tblLocation w' = tblLocation w ->
  id_len_cache w' = id_len_cache w ->
  encodable location w -> encodable location w'.
Proof.
  intros Ht Hc. destruct location as [loc |]; [| trivial].
  unfold encodable, in_force, cache_fresh, location_id_len_query.
  rewrite Ht, Hc. trivial.
Qed.

Lemma encodable_generate (location : option Location) (w w' : World) (id : string) :
  generate_insuree_number location w = (Ok id, w') ->
  encodable location w -> encodable location w'.
Proof.
  intros Hgen Henc.
  destruct (number_config (settings w)) as [L M] eqn:Hc.
  destruct (generate_insuree_number_inv _ _ _ _ _ _ Hc Hgen) as (main & Hmain & _ & _).
  destruct location as [loc |].
  - apply main_number_location_inv in Hmain.
    destruct Hmain as (code & id_len & w1 & rnd & _ & Hlen & Hrnd & _).
    apply get_random_inv in Hrnd. destruct Hrnd as (_ & _ & _ & ->).
    destruct Henc as (Hin & Hcode & Hf).
    pose proof (get_location_id_len_keeps_fresh _ _ _ _ Hlen Hf) as Hf1.
    destruct (get_location_id_len_cached _ _ _ _ Hlen) as (_ & Ht & _).
    assert (Hl : tblLocation w1 = tblLocation w) by (unfold tables in Ht; congruence).
    unfold encodable, in_force, cache_fresh, location_id_len_query in *.
    cbn [tblLocation id_len_cache set_draws]. rewrite Hl.
    repeat split; try tauto. intros ty v Hv. specialize (Hf1 ty v Hv).
    now rewrite Hl in Hf1.
  - exact I.
Qed.

Lemma encodable_fits (location : option Location) (w : World) :
  encodable location w ->
  code_fits location w = true /\ code_nonneg location = true.
Proof.
  destruct location as [loc |]; [| now split].
  intros (Hin & (code & Hint & Hcode) & Hf). split.
  - cbn [code_fits]. exact (location_in_force_fits loc w code Hin (Hf _) Hint).
  - cbn [code_nonneg]. rewrite Hint. now apply Z.leb_le.
Qed.

(** The number the retry loop returns was returned by
    [generate_insuree_number] in a world with the same tables. *)
Lemma retry_loop_generated (attempts : nat) (location : option Location) (w w' : World)
    (n : string) :
  retry_loop attempts location w = (Ok n, w') ->
  encodable location w ->
  encodable location w'
  /\ exists w1 w2,
       tables w1 = tables w /\ encodable location w1
       /\ generate_insuree_number location w1 = (Ok n, w2).
Proof.
  revert w; induction attempts as [|a IH]; intros w; cbn [retry_loop]; [discriminate |].
  unfold bind at 1.
  destruct (generate_insuree_number location w) as [[x | e] w1] eqn:E; [| discriminate].
  pose proof (preserves_generate_insuree_number _ _ _ _ E) as Ht.
  unfold bind, number_taken, gets.
  destruct (existsb (has_chf_id x) (tblInsuree w1)
            || existsb (has_number x) (batch_numbers w1)).
  - intros H Henc. pose proof (encodable_generate _ _ _ _ E Henc) as Henc1.
    destruct (IH _ H Henc1) as (Henc' & wa & wb & Hta & Henca & Hg).
    split; [assumption |]. exists wa, wb. repeat split; try assumption. congruence.
  - intros H Henc. injection H as <- <-.
    split; [exact (encodable_generate _ _ _ _ E Henc) |].
    exists w, w1. repeat split; assumption.
Qed.

Lemma populate_generated (count : nat) (batch : InsureeBatch) (location : option Location)
    (w w' : World) (r : result unit) :
  populate count batch location w = (r, w') ->
  encodable location w ->
  forall row,
    In row (batch_numbers w') ->
    In row (batch_numbers w)
    \/ (bin_batch row = batch_id batch /\ print_date row = None
        /\ exists w1 w2,
             settings w1 = settings w /\ encodable location w1
             /\ generate_insuree_number location w1 = (Ok (insuree_number row), w2)).
Proof.
  revert w; induction count as [|c IH]; intros w; cbn [populate].
  - intros H _ row Hin. injection H as _ <-. now left.
  - unfold bind at 1.
    destruct (retry_loop (range_len 1 10000) location w) as [[x | e] w1] eqn:E.
    + unfold bind, create_number, modify. intros H Henc row Hin.
      destruct (retry_loop_generated _ _ _ _ _ E Henc) as (Henc1 & wa & wb & Hta & Henca & Hg).
      pose proof (preserves_retry_loop _ _ _ _ _ E) as Ht.
      assert (Henc2 : encodable location
                        (set_batch_numbers
                           (batch_numbers w1 ++
                            [{| bin_batch := batch_id batch; insuree_number := x;
                                print_date := None |}]) w1))
        by (apply (encodable_tables location w1); [reflexivity | reflexivity | assumption]).
      destruct (IH _ H Henc2 row Hin) as [Hold | (Hb & Hp & wc & wd & Hs & Hencc & Hgc)].
      * cbn [batch_numbers set_batch_numbers] in Hold.
        apply in_app_iff in Hold. destruct Hold as [Hold | [<- | []]].
        -- left. unfold tables in Ht. congruence.
        -- right. cbn. repeat split. exists wa, wb.
           repeat split; try assumption. unfold tables in Hta. congruence.
      * right. repeat split; try assumption. exists wc, wd.
        repeat split; try assumption.
        cbn [settings set_batch_numbers] in Hs. unfold tables in Ht. congruence.
    + intros H _ row Hin. injection H as _ <-.
      pose proof (preserves_retry_loop _ _ _ _ _ E) as Ht.
      left. unfold tables in Ht. congruence.
Qed.

(** X19.  For the length [L] and positive modulo in effect, and without a
    location or with a stored location in force whose code is a
    non-negative integer (the memoisation table not being stale), every
    number row [generate_insuree_numbers] adds, whether it then returns or
    raises, is an unprinted row of the new batch whose number has exactly
    [L] characters, all digits. *)
Theorem generate_insuree_numbers_well_formed (amount audit_user : Z)
    (location : option Location) (c : option string) (w : World) (L M : Z)
    (row : BatchInsureeNumber) :
  number_config (settings w) = (L, M) ->
  0 < M ->
  encodable location w ->
  In row (batch_numbers (snd (generate_insuree_numbers amount audit_user location c w))) ->
  In row (batch_numbers w)
  \/ (print_date row = None
      /\ len (insuree_number row) = L
      /\ all_digits (insuree_number row) = true).
Proof.
  intros Hc HM Henc.
  destruct (generate_insuree_numbers amount audit_user location c w) as [r w'] eqn:E.
  cbn [snd].
  unfold generate_insuree_numbers, bind at 1, create_batch in E. unfold bind in E.
  destruct (populate _ _ _ _) as [r1 w1] eqn:E1.
  assert (Hw : w1 = w') by (destruct r1; now injection E as _ <-). subst w1.
  intros Hin.
  assert (Henc0 : encodable location
                    (set_batches
                       (batches w ++
                        [{| batch_id := S (list_max (map batch_id (batches w)));
                            batch_location := location; audit_user_id := audit_user;
                            archived := false; comment := c |}]) w))
    by (apply (encodable_tables location w); [reflexivity | reflexivity | assumption]).
  destruct (populate_generated _ _ _ _ _ _ E1 Henc0 row Hin)
    as [Hold | (_ & Hp & w1 & w2 & Hs & Henc1 & Hg)].
  - now left.
  - right. split; [assumption |].
    cbn [settings set_batches] in Hs.
    destruct (encodable_fits _ _ Henc1) as (Hfit & Hnn).
    assert (Hc1 : number_config (settings w1) = (L, M)) by (now rewrite Hs).
    destruct (generated_number_digits _ _ _ _ _ _ Hc1 HM Hfit Hnn Hg)
      as (main & _ & HLW & _ & ->).
    pose proof (len_str_pos M) as HW.
    split.
    + unfold len at 1. rewrite length_app, !length_digits. lia.
    + now rewrite all_digits_app, !all_digits_digits.
Qed.

Lemma generate_insuree_numbers_well_formed_witness :
  In (number_row 1 "121123450" None) (batch_numbers world0)
  \/ (print_date (number_row 1 "121123450" None) = None
      /\ len (insuree_number (number_row 1 "121123450" None)) = 9
      /\ all_digits (insuree_number (number_row 1 "121123450" None)) = true).
Proof.
  apply (generate_insuree_numbers_well_formed 2 1 (Some district_12) None world0 9 7).
  - reflexivity.
  - lia.
  - split; [split; [now left | reflexivity] |].
    split; [exists 12; split; [reflexivity | lia] |].
    intros ty v H. discriminate H.
  - vm_compute. now left.
Defined.

Lemma filter_joins_fresh (q : RawQuerySet) (i : Insuree) (rows : list BatchInsureeNumber) :
  (forall r, In r rows -> insuree_number r <> chf_id i) ->
  filter (joins q i) rows = [].
Proof.
  intros H. apply filter_none. intros r Hr. unfold joins.
  destruct (String.eqb_spec (chf_id i) (insuree_number r)) as [E | _]; [| reflexivity].
  exfalso. now apply (H r Hr).
Qed.

Lemma populate_settings (count : nat) (batch : InsureeBatch) (location : option Location)
    (w w' : World) (r : result unit) :
  populate count batch location w = (r, w') -> settings w' = settings w.
Proof.
  revert w; induction count as [|k IH]; intros w; cbn [populate].
  - intros H. now injection H as _ <-.
  - unfold bind at 1.
    destruct (retry_loop (range_len 1 10000) location w) as [[x | e] w2] eqn:Er.
    + pose proof (preserves_retry_loop _ _ _ _ _ Er) as Ht.
      unfold bind, create_number, modify. intros H.
      apply IH in H. cbn [settings set_batch_numbers] in H.
      unfold tables in Ht. congruence.
    + intros H. injection H as _ <-.
      pose proof (preserves_retry_loop _ _ _ _ _ Er) as Ht.
      unfold tables in Ht. congruence.
Qed.

Lemma flat_map_ext_in' {A B : Type} (f g : A -> list B) (l : list A) :
  (forall a, In a l -> f a = g a) -> flat_map f l = flat_map g l.
Proof.
  induction l as [|a l IH]; intros H; [reflexivity |].
  cbn. rewrite (H a (or_introl eq_refl)), IH; [reflexivity |].
  intros b Hb. apply H. now right.
Qed.

(** X20.  Generating numbers changes nothing for the export: the numbers
    a call adds are carried by no insuree, so after
    [generate_insuree_numbers], however it ended, [export_insurees] selects
    for every batch and amount the rows it selected before. *)
Theorem generated_numbers_wait_for_insurees (amount audit_user : Z)
    (location : option Location) (c : option string) (w : World)
    (batch : option InsureeBatch) (limit : option Z) :
  selection batch limit (snd (generate_insuree_numbers amount audit_user location c w))
  = selection batch limit w.
Proof.
  destruct (generate_insuree_numbers amount audit_user location c w) as [r w'] eqn:E.
  cbn [snd].
  unfold generate_insuree_numbers, bind at 1, create_batch in E. unfold bind in E.
  destruct (populate _ _ _ _) as [r1 w1] eqn:E1.
  assert (Hw : w1 = w') by (destruct r1; now injection E as _ <-). subst w1.
  destruct (populate_any _ _ _ _ _ _ E1) as (numbers & Hbn & Hins & _ & _ & Hfresh & _).
  pose proof (populate_settings _ _ _ _ _ _ E1) as Hset.
  cbn [batch_numbers tblInsuree settings set_batches] in Hbn, Hins, Hset.
  unfold selection, get_insurees_to_export, bind, gets, ret. cbn [fst].
  rewrite Hset.
  match goal with
  | |- context [run_query ?q w'] =>
      assert (Hj : joined q w' = joined q w);
      [| unfold run_query; rewrite Hj; destruct (row_cap q) as [k |];
         [destruct (k <? 0) |]; reflexivity]
  end.
  unfold joined. rewrite Hins, Hbn.
  apply flat_map_ext_in'. intros i Hi. f_equal.
  rewrite filter_app. rewrite (filter_joins_fresh _ i (rows_of _ numbers)).
  - apply app_nil_r.
  - intros row Hrow Heq. unfold rows_of in Hrow. apply in_map_iff in Hrow.
    destruct Hrow as (n & <- & Hn). cbn in Heq.
    apply (Hfresh n Hn). unfold used_numbers. cbn [tblInsuree set_batches].
    apply in_app_iff. left. rewrite Heq. now apply in_map.
Qed.

End WholeBatches.
